(** * Combat formula engine and combat session synchronizer

    A shallow embedding of two TypeScript modules:

    - [CombatSynchronizer] (the class with [combatLocks]): the per-mission
      registry that starts, deduplicates, observes and terminates combat
      runs of an external collaborator ([EnhancedRealCombatAI]);
    - [UniversalCombatFormula.ts]: the pure duration / travel estimate.

    Conventions of the embedding.

    - A JS [number] is a rational [Q] with exact arithmetic; timestamps
      ([Date.now()], [startTime]) are integers [Z] (milliseconds).  Part
      II-a repeats the formula on numbers with the infinities, [NaN] and
      overflow; rounding to the nearest double is outside the model.
    - [Map<string, V>] is [gmap string V], [Set<string>] is [gset string].
    - [Date.now()] and the collaborator's private [combatState] are reads of
      the environment: the operation that performs the read takes the value
      read as an argument.
    - A completion listener is an opaque identifier; calling it appends an
      entry to an effect log.  In Part I every listener returns normally
      and a start is one step; Part II-b has the listeners that throw and
      the states inside [startCombat].  A listener does not call back into
      the synchronizer while it runs. *)

From Stdlib Require Import ZArith QArith Qround Qminmax Ascii Lia Lqa.
From stdpp Require Import gmap strings list fin_maps.

Set Warnings "-clear-no-such-hyp".

(* ===================================================================== *)
(** * Part I: the combat session synchronizer                             *)
(* ===================================================================== *)

Module Sync.

(** Modelled from the spec: the type declarations of [RealCombatState] live
    in [./EnhancedRealCombatAI], which is not part of the sources.  The
    handler reads exactly [victory], [startTime] and, for every combatant,
    [id] and [health]. *)
Record RealCombatant := mkCombatant {
  c_id : string;
  c_health : Q
}.

Record RealCombatState := mkState {
  victory : option bool;          (* boolean | null *)
  startTime : Z;
  combatants : list RealCombatant
}.

(** The value type of [finalResults]. *)
Record FinalResult := mkResult {
  fr_victory : bool;
  fr_actualDuration : Q;
  finalHealths : gmap string Q
}.

(** What the synchronizer does to the outside world: it starts a freshly
    constructed collaborator, and it calls completion listeners.  The
    mission id in [EffCallback] records on behalf of which mission the
    listener was called; the listener itself only receives the last two
    components. *)
Inductive Effect :=
| EffStartCombat (ai : nat) (missionId : string)
| EffCallback (missionId : string) (callback : nat) (victory : bool) (actualDuration : Q).

Section Synchronizer.

(** [Mission] (from [@/types/GameTypes]) and the roster entries ([any]) are
    stored or forwarded, never inspected. *)
Context {Mission Unit : Type}.

(** The value type of [activeCombats].  [combatAI] is the identity of the
    collaborator object created by [new EnhancedRealCombatAI()]. *)
Record CombatData := mkCombatData {
  combatAI : nat;
  mission : Mission;
  isComplete : bool;
  actualDuration : Q;
  startedAt : Z
}.

(** The five private fields of the class. *)
Record CombatSynchronizer := mkSync {
  activeCombats : gmap string CombatData;
  completedCombats : gset string;
  finalResults : gmap string FinalResult;
  combatLocks : gset string;
  missionCompletionCallbacks : gmap string (list nat)
}.

(** A synchronizer together with the log of its effects so far. *)
Record World := mkWorld {
  sync : CombatSynchronizer;
  effects : list Effect
}.

(** [new CombatSynchronizer()] *)
Definition newSynchronizer : CombatSynchronizer :=
  mkSync ∅ ∅ ∅ ∅ ∅.

Definition initWorld : World := mkWorld newSynchronizer [].

(** [(Date.now() - t) / 1000] *)
Definition secondsBetween (now t : Z) : Q := ((now - t) # 1000)%Q.

(** [state.combatants.forEach(c => finalHealths[c.id] = c.health)] on a
    fresh object: a later combatant with the same id overwrites.  The ids
    are taken to be ordinary keys; [SyncFine.ownHealths] has the id
    ["__proto__"], which stores nothing. *)
Definition collectFinalHealths (cs : list RealCombatant) : gmap string Q :=
  foldl (fun acc c => <[c_id c := c_health c]> acc) ∅ cs.

(** [this.missionCompletionCallbacks.get(missionId) || []] *)
Definition callbacksOf (s : CombatSynchronizer) (missionId : string) : list nat :=
  default [] (missionCompletionCallbacks s !! missionId).

(** The handler passed to [combatAI.onUpdate] by
    [startSynchronizedCombat missionId ...] (source lines 70-111).  Every
    listener is taken to return, so the clean-up always runs;
    [SyncFine.onUpdate] has the listeners that throw. *)
Definition onUpdate (missionId : string) (state : RealCombatState) (now : Z)
    (w : World) : World :=
  let s := sync w in
  match activeCombats s !! missionId, victory state with
  | Some combatData, Some v =>
      let actualDuration := secondsBetween now (startTime state) in
      (* combatData.isComplete = true; combatData.actualDuration = ... :
         the object stored in the map is mutated *)
      let combatData' :=
        mkCombatData (combatAI combatData) (mission combatData) true
                     actualDuration (startedAt combatData) in
      let active1 := <[missionId := combatData']> (activeCombats s) in
      let finalHealths := collectFinalHealths (combatants state) in
      let results1 :=
        <[missionId := mkResult v actualDuration finalHealths]> (finalResults s) in
      (* notify all listeners *)
      let callbacks := callbacksOf s missionId in
      let calls := map (fun cb => EffCallback missionId cb v actualDuration) callbacks in
      (* clean up *)
      mkWorld
        (mkSync (delete missionId active1)
                ({[missionId]} ∪ completedCombats s)
                results1
                (combatLocks s ∖ {[missionId]})
                (delete missionId (missionCompletionCallbacks s)))
        (effects w ++ calls)
  | _, _ => w
  end.

(** The three early returns of [startSynchronizedCombat] (lines 46-61):
    [true] when none of them is taken. *)
Definition startGuardsPass (s : CombatSynchronizer) (missionId : string) : bool :=
  if decide (missionId ∈ completedCombats s) then false
  else if decide (missionId ∈ combatLocks s) then false
  else match activeCombats s !! missionId with
       | Some existing => isComplete existing     (* existing && !existing.isComplete returns *)
       | None => true
       end.

(** [startSynchronizedCombat].  [ai] is the identity of the collaborator
    created at line 67; [syncUpdates] are the updates (with the clock value
    at each) that the collaborator delivers to the handler before
    [startCombat] returns; [now] is the clock at line 122.  The call is one
    step here: [startCombat] returns, and nothing but these updates happens
    inside it.  [SyncFine] splits the call at [startCombat]. *)
Definition startSynchronizedCombat (missionId : string)
    (squad enemies : list Unit) (mission : Mission)
    (ai : nat) (syncUpdates : list (RealCombatState * Z)) (now : Z)
    (w : World) : World :=
  let s := sync w in
  if startGuardsPass s missionId then
    (* this.combatLocks.add(missionId) *)
    let s1 := mkSync (activeCombats s) (completedCombats s) (finalResults s)
                     ({[missionId]} ∪ combatLocks s)
                     (missionCompletionCallbacks s) in
    (* combatAI.startCombat(squad, enemies, mission) *)
    let w1 := mkWorld s1 (effects w ++ [EffStartCombat ai missionId]) in
    let w2 := foldl (fun acc u => onUpdate missionId u.1 u.2 acc) w1 syncUpdates in
    (* this.activeCombats.set(missionId, {...}) *)
    let s2 := sync w2 in
    mkWorld
      (mkSync (<[missionId := mkCombatData ai mission false 0%Q now]> (activeCombats s2))
              (completedCombats s2) (finalResults s2) (combatLocks s2)
              (missionCompletionCallbacks s2))
      (effects w2)
  else w.

(** [isCombatActive] *)
Definition isCombatActive (s : CombatSynchronizer) (missionId : string) : bool :=
  let isActive := match activeCombats s !! missionId with
                  | Some combatData => negb (isComplete combatData)
                  | None => false
                  end in
  let isLocked := bool_decide (missionId ∈ combatLocks s) in
  isActive || isLocked.

(** [onCombatComplete] *)
Definition onCombatComplete (missionId : string) (callback : nat) (w : World) : World :=
  let s := sync w in
  let callbacks := callbacksOf s missionId ++ [callback] in
  mkWorld
    (mkSync (activeCombats s) (completedCombats s) (finalResults s) (combatLocks s)
            (<[missionId := callbacks]> (missionCompletionCallbacks s)))
    (effects w).

(** [getActualCombatDuration]: [None] is [null]. *)
Definition getActualCombatDuration (s : CombatSynchronizer) (missionId : string) : option Q :=
  match activeCombats s !! missionId with
  | Some combatData => if isComplete combatData then Some (actualDuration combatData) else None
  | None => None
  end.

(** [(Date.now() - combatState?.startTime || Date.now()) / 1000]: [-] binds
    tighter than [||], so the right operand is taken when the difference is
    [0] or, for an absent state, [NaN]. *)
Definition forcedDuration (combatState : option RealCombatState) (now : Z) : Q :=
  match combatState with
  | Some st => if (now - startTime st =? 0)%Z then (now # 1000)%Q
               else secondsBetween now (startTime st)
  | None => (now # 1000)%Q
  end.

(** [forceCombatEnd].  [combatState] is the value of
    [combatData.combatAI['combatState']] at the time of the call. *)
Definition forceCombatEnd (missionId : string)
    (combatState : option RealCombatState) (now : Z) (w : World) : World :=
  let s := sync w in
  match activeCombats s !! missionId with
  | Some combatData =>
      if isComplete combatData then w else
      let duration := forcedDuration combatState now in
      let combatData' :=
        mkCombatData (combatAI combatData) (mission combatData) true
                     duration (startedAt combatData) in
      let active1 := <[missionId := combatData']> (activeCombats s) in
      let finalHealths :=
        match combatState with
        | Some st => collectFinalHealths (combatants st)
        | None => ∅
        end in
      mkWorld
        (mkSync (delete missionId active1)
                ({[missionId]} ∪ completedCombats s)
                (<[missionId := mkResult false duration finalHealths]> (finalResults s))
                (combatLocks s ∖ {[missionId]})
                (delete missionId (missionCompletionCallbacks s)))
        (effects w)
  | None => w
  end.

(** [getCombatResults]: [None] is [null]. *)
Definition getCombatResults (s : CombatSynchronizer) (missionId : string) : option FinalResult :=
  finalResults s !! missionId.

(** ** Executions

    Everything that can happen to the synchronizer between two quiescent
    states: a call of one of its mutating methods, or an update delivered by
    a collaborator to the handler installed for [missionId]. *)
Inductive Event :=
| EvStart (missionId : string) (squad enemies : list Unit) (mission : Mission)
          (ai : nat) (syncUpdates : list (RealCombatState * Z)) (now : Z)
| EvUpdate (missionId : string) (state : RealCombatState) (now : Z)
| EvRegister (missionId : string) (callback : nat)
| EvForceEnd (missionId : string) (combatState : option RealCombatState) (now : Z).

Definition step (w : World) (e : Event) : World :=
  match e with
  | EvStart missionId squad enemies mission ai ups now =>
      startSynchronizedCombat missionId squad enemies mission ai ups now w
  | EvUpdate missionId state now => onUpdate missionId state now w
  | EvRegister missionId callback => onCombatComplete missionId callback w
  | EvForceEnd missionId cs now => forceCombatEnd missionId cs now w
  end.

Definition run (w : World) (t : list Event) : World := foldl step w t.

(** The quiescent states the synchronizer can be in. *)
Definition reachable (w : World) : Prop := exists t, w = run initWorld t.

(** How many collaborators were started for [missionId]. *)
Definition isStartOf (missionId : string) (e : Effect) : bool :=
  match e with
  | EffStartCombat _ m => bool_decide (m = missionId)
  | EffCallback _ _ _ _ => false
  end.

Definition startsOf (missionId : string) (w : World) : nat :=
  length (filter (fun e => isStartOf missionId e = true) (effects w)).

(** The listener calls made on behalf of [missionId]. *)
Definition isCallbackOf (missionId : string) (e : Effect) : bool :=
  match e with
  | EffStartCombat _ _ => false
  | EffCallback m _ _ _ => bool_decide (m = missionId)
  end.

Definition callbacksFor (missionId : string) (w : World) : list Effect :=
  filter (fun e => isCallbackOf missionId e = true) (effects w).

(** A registered session whose completion flag is false. *)
Definition liveSession (s : CombatSynchronizer) (missionId : string) : Prop :=
  exists combatData, activeCombats s !! missionId = Some combatData
                     /\ isComplete combatData = false.

(** The event is a terminal update or a forced end for [missionId]. *)
Definition endsMission (missionId : string) (e : Event) : Prop :=
  match e with
  | EvUpdate m state _ => m = missionId /\ victory state <> None
  | EvForceEnd m _ _ => m = missionId
  | _ => False
  end.

(** ** The invariant of quiescent states *)

Record Inv (w : World) : Prop := mkInv {
  inv_live : forall m cd, activeCombats (sync w) !! m = Some cd -> isComplete cd = false;
  inv_lock : forall m, m ∈ combatLocks (sync w) <-> is_Some (activeCombats (sync w) !! m);
  inv_done : forall m, m ∈ completedCombats (sync w) -> m ∉ combatLocks (sync w);
  inv_archive : forall m, m ∈ completedCombats (sync w) <-> is_Some (finalResults (sync w) !! m);
  inv_starts : forall m,
    startsOf m w =
    if decide (m ∈ combatLocks (sync w) \/ m ∈ completedCombats (sync w)) then 1 else 0
}.

(** ** Views of one mission

    What the synchronizer holds about one mission. *)
Definition viewAt (m : string) (w : World) :
    option CombatData * bool * option FinalResult * bool * list Effect :=
  (activeCombats (sync w) !! m,
   bool_decide (m ∈ completedCombats (sync w)),
   finalResults (sync w) !! m,
   bool_decide (m ∈ combatLocks (sync w)),
   callbacksFor m w).

(** The mission an event is addressed to. *)
Definition missionOf (e : Event) : string :=
  match e with
  | EvStart m _ _ _ _ _ _ | EvUpdate m _ _ | EvRegister m _ | EvForceEnd m _ _ => m
  end.

(** [absorbed m w]: [m] is completed, has no session and holds no lock. *)
Definition absorbed (m : string) (w : World) : Prop :=
  m ∈ completedCombats (sync w) /\ activeCombats (sync w) !! m = None
  /\ m ∉ combatLocks (sync w).

(** [m] was started: it holds the lock or is completed. *)
Definition started (m : string) (w : World) : Prop :=
  m ∈ combatLocks (sync w) \/ m ∈ completedCombats (sync w).

(** The combatants whose health a forced end records:
    [endState?.combatants], none when the state is absent. *)
Definition snapshotOf (combatState : option RealCombatState) : list RealCombatant :=
  match combatState with
  | Some st => combatants st
  | None => []
  end.

(** The snapshot a natural defeat would carry: the collaborator's state with
    [victory = false]. *)
Definition defeatOf (st : RealCombatState) : RealCombatState :=
  mkState (Some false) (startTime st) (combatants st).

End Synchronizer.

(** ** Concrete executions

    Mission ["m1"]; the mission record and the roster entries are units. *)

Definition exStart : @Event unit unit := EvStart "m1" [] [] tt 0 [] 1000.

(** A snapshot of the collaborator, three seconds into the fight. *)
Definition exSnapshot : RealCombatState :=
  mkState None 1000 [mkCombatant "hero" (80 # 1); mkCombatant "raider" (12 # 1)].

Definition exVictory : RealCombatState :=
  mkState (Some true) 1000 [mkCombatant "hero" (80 # 1); mkCombatant "raider" (0 # 1)].

(** ["m1"] started. *)
Definition exLive : @World unit := run initWorld [exStart].

(** ["m1"] started, listener [7] registered. *)
Definition exRegistered : @World unit := run initWorld [exStart; EvRegister "m1" 7].

(** ["m1"] started and won. *)
Definition exCompleted : @World unit := run initWorld [exStart; EvUpdate "m1" exVictory 4000].

(** A second start and a forced end, later. *)
Definition exLater : list (@Event unit unit) :=
  [EvStart "m1" [] [] tt 1 [] 5000; EvForceEnd "m1" None 9000].

Definition exSession : @CombatData unit := mkCombatData 0 tt false 0%Q 1000.

End Sync.

(* ===================================================================== *)
(** * Part II: the universal combat formula                               *)
(* ===================================================================== *)

(** The numbers are exact rationals in this part: every input is a finite
    number and no result is rounded or overflows.  [FormulaNum] below has
    the infinities and [NaN]. *)

Module Formula.

Local Open Scope Q_scope.

(** ** Numbers and strings of the host language *)

(** [x < y] on numbers, as a test. *)
Definition Qltb (x y : Q) : bool := negb (Qle_bool y x).

(** [Math.round]: the nearest integer, a tie going up. *)
Definition round (x : Q) : Q := inject_Z (Qfloor (x + (1 # 2))).

(** [const clamp = (v, min, max) => Math.max(min, Math.min(max, v))] *)
Definition clamp (v min max : Q) : Q := Qmax min (Qmin max v).

(** [x || d] on numbers: [0] is the falsy number. *)
Definition orElse (x d : Q) : Q := if Qeq_bool x 0 then d else x.

(** [x ?? d] *)
Definition nullish (x : option Q) (d : Q) : Q :=
  match x with Some v => v | None => d end.

(** [toLowerCase], on the ASCII letters. *)
Definition lowerAscii (c : ascii) : ascii :=
  let n := nat_of_ascii c in
  if (Nat.leb 65 n && Nat.leb n 90)%bool then ascii_of_nat (n + 32) else c.

Fixpoint toLowerCase (s : string) : string :=
  match s with
  | EmptyString => EmptyString
  | String c s' => String (lowerAscii c) (toLowerCase s')
  end.

(** [s.includes(sub)] *)
Fixpoint includes (s sub : string) : bool :=
  if String.prefix sub s then true
  else match s with
       | EmptyString => false
       | String _ s' => includes s' sub
       end.

(** ** Data *)

(** The result of [mapCoreStats10]; the fields this module reads. *)
Record CoreStats := mkCore {
  combatLevel : Q;
  combatDamageMultiplier : Q;
  intelligence : Q;
  survival : Q
}.

(** The result of [normalizeWeaponFromItem]; the fields this module reads. *)
Record Weapon := mkWeapon {
  category : string;
  rpm : Q;
  swingSpeed : Q;
  w_accuracy : Q;
  w_reliability : Q;
  w_damage : Q
}.

(** [enemy.weapon]: a string (an item id), an object with optional
    [fireRate] and [damage], or anything else. *)
Inductive EnemyWeapon :=
| NoWeapon
| WeaponId (item : string)
| InlineWeapon (fireRate : option Q) (damage : option Q).

Record Enemy := mkEnemy {
  accuracy : option Q;
  damage : option Q;
  health : option Q;
  weapon : EnemyWeapon
}.

Record UniversalCombatResult := mkEstimate {
  estimatedDuration : Q;
  powerRatio : Q;
  squadDps : Q;
  enemyDps : Q;
  totalEnemyHealth : Q;
  difficultyModifier : Q;
  travelMinutes : Q
}.

(** The two imported functions, the read of a member's weapon and the
    power function, as an interface.

    - [equippedWeapon] is [member?.equipment?.weapon].
    - [mapCoreStats10] (from [./CoreStatMapper]) and
      [normalizeWeaponFromItem] (from [./WeaponNormalizer]) are not part of
      the sources; [None] is a falsy result.
    - [pow_1_5] is [x => Math.pow(x, 1.5)]. *)
Class Imports (Member : Type) := {
  equippedWeapon : Member -> option string;
  mapCoreStats10 : Member -> CoreStats;
  normalizeWeaponFromItem : option string -> option Weapon;
  pow_1_5 : Q -> Q
}.

Section Engine.

(** A squad member is [any]; the module passes it to [mapCoreStats10] and
    reads its weapon. *)
Context {Member : Type} `{!Imports Member}.

Definition computeMemberDps (member : Member) : Q :=
  let core := mapCoreStats10 member in
  match normalizeWeaponFromItem (equippedWeapon member) with
  | None =>
      let baseDps := (1 # 5) + combatLevel core * (1 # 4) in
      baseDps * combatDamageMultiplier core
  | Some w =>
      if (category w =? "gun")%string then
        let shotsPerSec := rpm w / 60 in
        let acc := w_accuracy w / 100 in
        let rel := w_reliability w / 100 in
        w_damage w * shotsPerSec * acc * rel * combatDamageMultiplier core
      else
        let swingsPerSec := swingSpeed w / 60 in
        let acc := w_accuracy w / 100 in
        let rel := w_reliability w / 100 in
        w_damage w * swingsPerSec * acc * rel * combatDamageMultiplier core
  end.

Definition computeEnemyDps (enemy : Enemy) : Q :=
  let acc0 := nullish (accuracy enemy) 60 / 100 in
  let rpm0 := 30 in
  let dmg0 := nullish (damage enemy) 10 in
  let rel0 := 3 # 4 in
  let '(rpm, dmg, acc, rel) :=
    match weapon enemy with
    | WeaponId item =>
        match normalizeWeaponFromItem (Some item) with
        | Some w =>
            if (category w =? "gun")%string then
              (Formula.rpm w, w_damage w, w_accuracy w / 100, w_reliability w / 100)
            else if (category w =? "melee")%string then
              (swingSpeed w, w_damage w, w_accuracy w / 100, w_reliability w / 100)
            else (rpm0, dmg0, acc0, rel0)
        | None => (rpm0, dmg0, acc0, rel0)
        end
    | InlineWeapon fireRate wdamage =>
        (nullish fireRate 1 * 20, nullish wdamage dmg0, acc0, rel0)
    | NoWeapon => (rpm0, dmg0, acc0, rel0)
    end in
  let perSec := (rpm / 60) * acc * rel in
  Qmax (1 # 2) (dmg * perSec).

(** [arr.reduce((s, x) => s + f(x), 0)] *)
Definition sumOf {A : Type} (f : A -> Q) (arr : list A) : Q :=
  fold_left (fun s x => s + f x) arr 0.

Definition terrainFactor (location : string) : Q :=
  let loc := toLowerCase location in
  if includes loc "junction" then 8 # 5
  else if includes loc "complex" then 3 # 2
  else if includes loc "valley" then 7 # 5
  else 13 # 10.

Definition subFactor (subTerrain : option string) : Q :=
  let st := toLowerCase (match subTerrain with Some s => s | None => "" end) in
  if includes st "alleys" then 6 # 5
  else if includes st "tunnel" then 7 # 5
  else if includes st "canyon" then 13 # 10
  else if includes st "dunes" then 5 # 4
  else if includes st "salt" then 9 # 10
  else if includes st "marsh" then 5 # 4
  else if includes st "ruins" then 23 # 20
  else 1.

(** The sums of intelligence and survival over the squad, or [5] and [5]
    for an empty squad (lines 98-103). *)
Definition avgCore (squadMembers : list Member) : Q * Q :=
  match squadMembers with
  | [] => (5, 5)
  | _ => fold_left (fun a c => (a.1 + intelligence c, a.2 + survival c))
                   (map mapCoreStats10 squadMembers) (0, 0)
  end.

(** [1 - (avgInt / 10) * 0.2 - (avgSurv / 10) * 0.2] (lines 104-106, 123) *)
Definition reduction (squadMembers : list Member) : Q :=
  let denom := Qmax 1 (inject_Z (Z.of_nat (length squadMembers))) in
  let avgInt := (avgCore squadMembers).1 / denom in
  let avgSurv := (avgCore squadMembers).2 / denom in
  1 - (avgInt / 10) * (1 # 5) - (avgSurv / 10) * (1 # 5).

(** The product that is rounded at line 124. *)
Definition travelProduct (squadMembers : list Member) (difficulty : Q)
    (location : string) (subTerrain : option string) : Q :=
  let baseTravel := 30 + difficulty * 10 in
  baseTravel * terrainFactor location * subFactor subTerrain
    * Qmax (3 # 5) (reduction squadMembers).

(** The factor applied to the adjusted combat time (lines 93-95). *)
Definition powerFactor (powerRatio : Q) : Q :=
  if Qltb 2 powerRatio then 3 # 5
  else if Qltb powerRatio (1 # 2) then 5 # 2
  else 6 # 5.

(** [adjustedCombat] after line 95. *)
Definition adjustedCombat (squadMembers : list Member) (enemies : list Enemy)
    (difficulty : Q) : Q :=
  let squadDps := Qmax (1 # 2) (sumOf computeMemberDps squadMembers) in
  let enemyDps := Qmax (1 # 2) (sumOf computeEnemyDps enemies) in
  let totalEnemyHealth := sumOf (fun e => nullish (health e) 40 * 30) enemies in
  let baseCombatSeconds := totalEnemyHealth / squadDps in
  let difficultyMultiplier := pow_1_5 (Qmax 1 (orElse difficulty 1)) in
  let powerRatio := squadDps / Qmax enemyDps (1 # 2) in
  baseCombatSeconds * difficultyMultiplier * powerFactor powerRatio.

Definition calculateUniversalCombatDuration (squadMembers : list Member)
    (enemies : list Enemy) (difficulty : Q) (location : string)
    (subTerrain : option string) : UniversalCombatResult :=
  let squadDps := Qmax (1 # 2) (sumOf computeMemberDps squadMembers) in
  let enemyDps := Qmax (1 # 2) (sumOf computeEnemyDps enemies) in
  let totalEnemyHealth := sumOf (fun e => nullish (health e) 40 * 30) enemies in
  let difficultyMultiplier := pow_1_5 (Qmax 1 (orElse difficulty 1)) in
  let powerRatio := squadDps / Qmax enemyDps (1 # 2) in
  let travelMinutes :=
    clamp (round (travelProduct squadMembers difficulty location subTerrain)) 9 600 in
  let totalSeconds :=
    adjustedCombat squadMembers enemies difficulty + travelMinutes * 60 in
  mkEstimate totalSeconds powerRatio squadDps enemyDps totalEnemyHealth
             difficultyMultiplier travelMinutes.

End Engine.

(** ** A concrete instance

    Squad members carry their core stats and the id of their weapon; the
    catalogue knows one rifle and one machete; [Math.pow(x, 1.5)] is
    [x * sqrt x] with the square root taken to six decimals. *)

Record ExMember := mkMember {
  m_core : CoreStats;
  m_weapon : option string
}.

Definition exCatalogue (item : option string) : option Weapon :=
  match item with
  | Some name =>
      if (name =? "rifle")%string then Some (mkWeapon "gun" 60 0 80 90 20)
      else if (name =? "machete")%string then Some (mkWeapon "melee" 0 40 70 95 15)
      else None
  | None => None
  end.

Definition sqrtApprox (x : Q) : Q :=
  Z.sqrt (Qnum x * 1000000000000 / Zpos (Qden x)) # 1000000.

Definition pow_1_5_approx (x : Q) : Q := x * sqrtApprox x.

#[global] Instance exImports : Imports ExMember := {
  equippedWeapon := m_weapon;
  mapCoreStats10 := m_core;
  normalizeWeaponFromItem := exCatalogue;
  pow_1_5 := pow_1_5_approx
}.

Definition exEstimate := calculateUniversalCombatDuration (Member:=ExMember).


Definition exRifleman : ExMember := mkMember (mkCore 5 1 5 5) (Some "rifle").
Definition exBrawler : ExMember := mkMember (mkCore 10 1 5 5) None.
Definition exRaider : Enemy := mkEnemy None None (Some 40) NoWeapon.

End Formula.

(* ===================================================================== *)
(** * Part II-a: the duration formula on the numbers of the host language *)
(* ===================================================================== *)

(** [UniversalCombatFormula.ts] once more, with the values a [number] can
    take that a rational cannot: the two infinities and [NaN].  A finite
    value is kept exactly (rounding to the nearest double is not
    represented, and there is one zero); a result whose magnitude reaches
    the overflow threshold becomes an infinity. *)

Module FormulaNum.

Local Open Scope Q_scope.

Inductive Num :=
| Fin (q : Q)
| PInf
| NInf
| NaN.

(** A result of magnitude [2^1024 - 2^970] or more is rounded to an
    infinity. *)
Definition overflow : Q := inject_Z (2 ^ 1024 - 2 ^ 970).

Definition norm (q : Q) : Num :=
  if Qle_bool overflow q then PInf
  else if Qle_bool q (- overflow) then NInf
  else Fin q.

(** The sign of a rational. *)
Definition sgn (q : Q) : comparison := (Qnum q ?= 0)%Z.

Definition neg (x : Num) : Num :=
  match x with
  | Fin q => Fin (- q)
  | PInf => NInf
  | NInf => PInf
  | NaN => NaN
  end.

(** [x + y] *)
Definition add (x y : Num) : Num :=
  match x, y with
  | NaN, _ | _, NaN => NaN
  | PInf, NInf | NInf, PInf => NaN
  | PInf, _ | _, PInf => PInf
  | NInf, _ | _, NInf => NInf
  | Fin a, Fin b => norm (a + b)
  end.

(** [x - y] *)
Definition sub (x y : Num) : Num := add x (neg y).

(** An infinity times a finite number. *)
Definition scaleInf (inf : Num) (a : Q) : Num :=
  match sgn a with
  | Eq => NaN
  | Gt => inf
  | Lt => neg inf
  end.

(** [x * y] *)
Definition mul (x y : Num) : Num :=
  match x, y with
  | NaN, _ | _, NaN => NaN
  | Fin a, Fin b => norm (a * b)
  | Fin a, inf => scaleInf inf a
  | inf, Fin b => scaleInf inf b
  | PInf, PInf | NInf, NInf => PInf
  | PInf, NInf | NInf, PInf => NInf
  end.

(** [x / y]; with one zero, a division of a non-zero number by zero takes
    the sign of the dividend. *)
Definition div (x y : Num) : Num :=
  match x, y with
  | NaN, _ | _, NaN => NaN
  | Fin a, Fin b =>
      match sgn b with
      | Eq => scaleInf PInf a
      | _ => norm (a / b)
      end
  | Fin _, _ => Fin 0
  | inf, Fin b => match sgn b with Lt => neg inf | _ => inf end
  | _, _ => NaN
  end.

(** [Math.max(x, y)] *)
Definition max (x y : Num) : Num :=
  match x, y with
  | NaN, _ | _, NaN => NaN
  | PInf, _ | _, PInf => PInf
  | NInf, z | z, NInf => z
  | Fin a, Fin b => Fin (Qmax a b)
  end.

(** [Math.min(x, y)] *)
Definition min (x y : Num) : Num :=
  match x, y with
  | NaN, _ | _, NaN => NaN
  | NInf, _ | _, NInf => NInf
  | PInf, z | z, PInf => z
  | Fin a, Fin b => Fin (Qmin a b)
  end.

(** [x < y] *)
Definition ltb (x y : Num) : bool :=
  match x, y with
  | NaN, _ | _, NaN => false
  | _, NInf | PInf, _ => false
  | NInf, _ | _, PInf => true
  | Fin a, Fin b => Formula.Qltb a b
  end.

(** [Math.round(x)] *)
Definition round (x : Num) : Num :=
  match x with
  | Fin q => Fin (Formula.round q)
  | _ => x
  end.

(** [const clamp = (v, min, max) => Math.max(min, Math.min(max, v))] *)
Definition clamp (v lo hi : Num) : Num := max lo (min hi v).

(** [x || d]: [0] and [NaN] are the falsy numbers. *)
Definition orElse (x d : Num) : Num :=
  match x with
  | Fin q => if Qeq_bool q 0 then d else x
  | NaN => d
  | _ => x
  end.

(** [x ?? d] *)
Definition nullish (x : option Num) (d : Num) : Num :=
  match x with Some v => v | None => d end.

(** ** Data *)

Record CoreStats := mkCore {
  combatLevel : Num;
  combatDamageMultiplier : Num;
  intelligence : Num;
  survival : Num
}.

Record Weapon := mkWeapon {
  category : string;
  rpm : Num;
  swingSpeed : Num;
  w_accuracy : Num;
  w_reliability : Num;
  w_damage : Num
}.

Inductive EnemyWeapon :=
| NoWeapon
| WeaponId (item : string)
| InlineWeapon (fireRate : option Num) (damage : option Num).

(** An enemy is an object; its fields may be absent. *)
Record Enemy := mkEnemy {
  accuracy : option Num;
  damage : option Num;
  health : option Num;
  weapon : EnemyWeapon
}.

Record UniversalCombatResult := mkEstimate {
  estimatedDuration : Num;
  powerRatio : Num;
  squadDps : Num;
  enemyDps : Num;
  totalEnemyHealth : Num;
  difficultyModifier : Num;
  travelMinutes : Num
}.

(** The imported functions, which are not part of the sources and are
    taken to return, and [x => Math.pow(x, 1.5)] on the finite numbers
    that are not negative. *)
Class Imports (Member : Type) := {
  equippedWeapon : Member -> option string;
  mapCoreStats10 : Member -> CoreStats;
  normalizeWeaponFromItem : option string -> option Weapon;
  pow_1_5 : Q -> Q
}.

Section Engine.

Context {Member : Type} `{!Imports Member}.

(** [Math.pow(x, 1.5)] *)
Definition pow15 (x : Num) : Num :=
  match x with
  | Fin q => match sgn q with Lt => NaN | _ => norm (pow_1_5 q) end
  | PInf | NInf => PInf
  | NaN => NaN
  end.

Definition computeMemberDps (member : Member) : Num :=
  let core := mapCoreStats10 member in
  match normalizeWeaponFromItem (equippedWeapon member) with
  | None =>
      let baseDps := add (Fin (1 # 5)) (mul (combatLevel core) (Fin (1 # 4))) in
      mul baseDps (combatDamageMultiplier core)
  | Some w =>
      if (category w =? "gun")%string then
        let shotsPerSec := div (rpm w) (Fin 60) in
        let acc := div (w_accuracy w) (Fin 100) in
        let rel := div (w_reliability w) (Fin 100) in
        mul (mul (mul (mul (w_damage w) shotsPerSec) acc) rel)
            (combatDamageMultiplier core)
      else
        let swingsPerSec := div (swingSpeed w) (Fin 60) in
        let acc := div (w_accuracy w) (Fin 100) in
        let rel := div (w_reliability w) (Fin 100) in
        mul (mul (mul (mul (w_damage w) swingsPerSec) acc) rel)
            (combatDamageMultiplier core)
  end.

Definition computeEnemyDps (enemy : Enemy) : Num :=
  let acc0 := div (nullish (accuracy enemy) (Fin 60)) (Fin 100) in
  let rpm0 := Fin 30 in
  let dmg0 := nullish (damage enemy) (Fin 10) in
  let rel0 := Fin (3 # 4) in
  let '(rpm, dmg, acc, rel) :=
    match weapon enemy with
    | WeaponId item =>
        match normalizeWeaponFromItem (Some item) with
        | Some w =>
            if (category w =? "gun")%string then
              (FormulaNum.rpm w, w_damage w, div (w_accuracy w) (Fin 100),
               div (w_reliability w) (Fin 100))
            else if (category w =? "melee")%string then
              (swingSpeed w, w_damage w, div (w_accuracy w) (Fin 100),
               div (w_reliability w) (Fin 100))
            else (rpm0, dmg0, acc0, rel0)
        | None => (rpm0, dmg0, acc0, rel0)
        end
    | InlineWeapon fireRate wdamage =>
        (mul (nullish fireRate (Fin 1)) (Fin 20), nullish wdamage dmg0, acc0, rel0)
    | NoWeapon => (rpm0, dmg0, acc0, rel0)
    end in
  let perSec := mul (mul (div rpm (Fin 60)) acc) rel in
  max (Fin (1 # 2)) (mul dmg perSec).

(** [arr.reduce((s, x) => s + f(x), 0)] *)
Definition sumOf {A : Type} (f : A -> Num) (arr : list A) : Num :=
  fold_left (fun s x => add s (f x)) arr (Fin 0).

(** Lines 98-103. *)
Definition avgCore (squadMembers : list Member) : Num * Num :=
  match squadMembers with
  | [] => (Fin 5, Fin 5)
  | _ => fold_left (fun a c => (add a.1 (intelligence c), add a.2 (survival c)))
                   (map mapCoreStats10 squadMembers) (Fin 0, Fin 0)
  end.

(** Lines 104-106 and 123. *)
Definition reduction (squadMembers : list Member) : Num :=
  let denom := max (Fin 1) (Fin (inject_Z (Z.of_nat (length squadMembers)))) in
  let avgInt := div (avgCore squadMembers).1 denom in
  let avgSurv := div (avgCore squadMembers).2 denom in
  sub (sub (Fin 1) (mul (div avgInt (Fin 10)) (Fin (1 # 5))))
      (mul (div avgSurv (Fin 10)) (Fin (1 # 5))).

(** Lines 93-95. *)
Definition powerFactor (powerRatio : Num) : Num :=
  if ltb (Fin 2) powerRatio then Fin (3 # 5)
  else if ltb powerRatio (Fin (1 # 2)) then Fin (5 # 2)
  else Fin (6 # 5).

Definition calculateUniversalCombatDuration (squadMembers : list Member)
    (enemies : list Enemy) (difficulty : Num) (location : string)
    (subTerrain : option string) : UniversalCombatResult :=
  let squadDps := max (Fin (1 # 2)) (sumOf computeMemberDps squadMembers) in
  let enemyDps := max (Fin (1 # 2)) (sumOf computeEnemyDps enemies) in
  let totalEnemyHealth :=
    sumOf (fun e => mul (nullish (health e) (Fin 40)) (Fin 30)) enemies in
  let baseCombatSeconds := div totalEnemyHealth squadDps in
  let difficultyMultiplier := pow15 (max (Fin 1) (orElse difficulty (Fin 1))) in
  let powerRatio := div squadDps (max enemyDps (Fin (1 # 2))) in
  let adjustedCombat :=
    mul (mul baseCombatSeconds difficultyMultiplier) (powerFactor powerRatio) in
  let baseTravel := add (Fin 30) (mul difficulty (Fin 10)) in
  let travelMinutes :=
    clamp (round (mul (mul (mul baseTravel (Fin (Formula.terrainFactor location)))
                           (Fin (Formula.subFactor subTerrain)))
                      (max (Fin (3 # 5)) (reduction squadMembers))))
          (Fin 9) (Fin 600) in
  let totalSeconds := add adjustedCombat (mul travelMinutes (Fin 60)) in
  mkEstimate totalSeconds powerRatio squadDps enemyDps totalEnemyHealth
             difficultyMultiplier travelMinutes.

End Engine.

(** ** What is said of a number *)

(** Not below one half: [NaN], [+Infinity], or a finite number that is at
    least [0.5]. *)
Definition floored (x : Num) : Prop :=
  match x with
  | Fin q => 1 # 2 <= q
  | NInf => False
  | _ => True
  end.

(** Not negative: [NaN], [+Infinity], or a finite number that is at least
    [0]. *)
Definition notNegative (x : Num) : Prop :=
  match x with
  | Fin q => 0 <= q
  | NInf => False
  | _ => True
  end.

Definition isNegative (x : Num) : bool :=
  match x with
  | Fin q => Formula.Qltb q 0
  | NInf => true
  | _ => false
  end.

(** ** A concrete instance: the members and the catalogue of [Formula]. *)

Definition ofCore (c : Formula.CoreStats) : CoreStats :=
  mkCore (Fin (Formula.combatLevel c)) (Fin (Formula.combatDamageMultiplier c))
         (Fin (Formula.intelligence c)) (Fin (Formula.survival c)).

Definition ofWeapon (w : Formula.Weapon) : Weapon :=
  mkWeapon (Formula.category w) (Fin (Formula.rpm w)) (Fin (Formula.swingSpeed w))
           (Fin (Formula.w_accuracy w)) (Fin (Formula.w_reliability w))
           (Fin (Formula.w_damage w)).

#[global] Instance exImports : Imports Formula.ExMember := {
  equippedWeapon := Formula.m_weapon;
  mapCoreStats10 := fun m => ofCore (Formula.m_core m);
  normalizeWeaponFromItem := fun item => option_map ofWeapon (Formula.exCatalogue item);
  pow_1_5 := Formula.pow_1_5_approx
}.

Definition exEstimate := calculateUniversalCombatDuration (Member:=Formula.ExMember).

(** An enemy whose [health] is [-1000]. *)
Definition exWraith : Enemy := mkEnemy None None (Some (Fin (-1000))) NoWeapon.

(** [1e300] *)
Definition exHuge : Num := Fin (inject_Z (10 ^ 300)).

(** An enemy whose [health] is [40]. *)
Definition exRaider : Enemy := mkEnemy None None (Some (Fin 40)) NoWeapon.

End FormulaNum.

(* ===================================================================== *)
(** * Part II-b: the synchronizer, step by step                           *)
(* ===================================================================== *)

(** The same class as in Part I, with two things made visible that Part I
    folds away.

    - A call of [startSynchronizedCombat] is two steps: up to and including
      the call of [combatAI.startCombat] (lines 43-114), and from its return
      to the end (lines 116-125).  Between them the collaborator runs and
      may deliver updates or call back into the synchronizer; it may also
      throw, and then the second step never happens.
    - A completion listener may throw.  [callbacks.forEach] (line 97) then
      stops at that listener and nothing after line 97 runs: there is no
      [try]/[finally] in the handler.

    The rosters are only forwarded to [startCombat] and are left out. *)
Module SyncFine.

Import Sync.

Section Synchronizer.

Context {Mission : Type}.

(** [throws cb]: listener [cb] throws when it is called. *)
Variable throws : nat -> bool.

(** [finalHealths[c.id] = c.health] on a plain object, in order: assigning a
    number to the key ["__proto__"] stores nothing. *)
Definition ownHealths (cs : list RealCombatant) : gmap string Q :=
  foldl (fun acc c => if decide (c_id c = "__proto__") then acc
                      else <[c_id c := c_health c]> acc) ∅ cs.

(** The listeners [forEach] gets to call: all of them up to and including
    the first one that throws. *)
Fixpoint invoked (callbacks : list nat) : list nat :=
  match callbacks with
  | [] => []
  | cb :: rest => cb :: (if throws cb then [] else invoked rest)
  end.

(** The synchronizer, its effects so far, and the activations of
    [startSynchronizedCombat] that are inside [startCombat]: for each such
    mission the collaborator and the mission record of the activation. *)
Record State := mkFine {
  world : @World Mission;
  pending : gmap string (nat * Mission)
}.

Definition initState : State := mkFine initWorld ∅.

(** The handler passed to [combatAI.onUpdate] (lines 70-111). *)
Definition onUpdate (missionId : string) (state : RealCombatState) (now : Z)
    (w : @World Mission) : @World Mission :=
  let s := sync w in
  match activeCombats s !! missionId, victory state with
  | Some combatData, Some v =>
      let actualDuration := secondsBetween now (startTime state) in
      let combatData' :=
        mkCombatData (combatAI combatData) (mission combatData) true
                     actualDuration (startedAt combatData) in
      let active1 := <[missionId := combatData']> (activeCombats s) in
      let results1 :=
        <[missionId := mkResult v actualDuration (ownHealths (combatants state))]>
          (finalResults s) in
      let callbacks := callbacksOf s missionId in
      let calls :=
        map (fun cb => EffCallback missionId cb v actualDuration) (invoked callbacks) in
      if existsb throws callbacks then
        (* a listener threw: lines 99-109 are skipped *)
        mkWorld
          (mkSync active1 (completedCombats s) results1 (combatLocks s)
                  (missionCompletionCallbacks s))
          (effects w ++ calls)
      else
        mkWorld
          (mkSync (delete missionId active1)
                  ({[missionId]} ∪ completedCombats s)
                  results1
                  (combatLocks s ∖ {[missionId]})
                  (delete missionId (missionCompletionCallbacks s)))
          (effects w ++ calls)
  | _, _ => w
  end.

(** [startSynchronizedCombat], lines 43-114: the guards, the lock, the new
    collaborator [ai], the subscription and the call of [startCombat]. *)
Definition enterStart (missionId : string) (mission : Mission) (ai : nat)
    (st : State) : State :=
  let w := world st in
  let s := sync w in
  if startGuardsPass s missionId then
    mkFine
      (mkWorld
         (mkSync (activeCombats s) (completedCombats s) (finalResults s)
                 ({[missionId]} ∪ combatLocks s)
                 (missionCompletionCallbacks s))
         (effects w ++ [EffStartCombat ai missionId]))
      (<[missionId := (ai, mission)]> (pending st))
  else st.

(** [startSynchronizedCombat], lines 116-125, when [startCombat] has
    returned: the session is stored.  [now] is the clock at line 122. *)
Definition returnStart (missionId : string) (now : Z) (st : State) : State :=
  match pending st !! missionId with
  | Some (ai, mission) =>
      let w := world st in
      let s := sync w in
      mkFine
        (mkWorld
           (mkSync (<[missionId := mkCombatData ai mission false 0%Q now]> (activeCombats s))
                   (completedCombats s) (finalResults s) (combatLocks s)
                   (missionCompletionCallbacks s))
           (effects w))
        (delete missionId (pending st))
  | None => st
  end.

(** [startCombat] threw: the activation ends without storing a session. *)
Definition throwStart (missionId : string) (st : State) : State :=
  mkFine (world st) (delete missionId (pending st)).

(** [forceCombatEnd] (lines 162-192). *)
Definition forceCombatEnd (missionId : string)
    (combatState : option RealCombatState) (now : Z)
    (w : @World Mission) : @World Mission :=
  let s := sync w in
  match activeCombats s !! missionId with
  | Some combatData =>
      if isComplete combatData then w else
      let duration := forcedDuration combatState now in
      let combatData' :=
        mkCombatData (combatAI combatData) (mission combatData) true
                     duration (startedAt combatData) in
      let active1 := <[missionId := combatData']> (activeCombats s) in
      let finalHealths :=
        match combatState with
        | Some st => ownHealths (combatants st)
        | None => ∅
        end in
      mkWorld
        (mkSync (delete missionId active1)
                ({[missionId]} ∪ completedCombats s)
                (<[missionId := mkResult false duration finalHealths]> (finalResults s))
                (combatLocks s ∖ {[missionId]})
                (delete missionId (missionCompletionCallbacks s)))
        (effects w)
  | None => w
  end.

(** What can happen between two points at which no code of the
    synchronizer is running, or while a collaborator is inside
    [startCombat]. *)
Inductive Event :=
| EvEnterStart (missionId : string) (mission : Mission) (ai : nat)
| EvReturnStart (missionId : string) (now : Z)
| EvThrowStart (missionId : string)
| EvUpdate (missionId : string) (state : RealCombatState) (now : Z)
| EvRegister (missionId : string) (callback : nat)
| EvForceEnd (missionId : string) (combatState : option RealCombatState) (now : Z).

Definition step (st : State) (e : Event) : State :=
  match e with
  | EvEnterStart missionId mission ai => enterStart missionId mission ai st
  | EvReturnStart missionId now => returnStart missionId now st
  | EvThrowStart missionId => throwStart missionId st
  | EvUpdate missionId state now =>
      mkFine (onUpdate missionId state now (world st)) (pending st)
  | EvRegister missionId callback =>
      mkFine (onCombatComplete missionId callback (world st)) (pending st)
  | EvForceEnd missionId cs now =>
      mkFine (forceCombatEnd missionId cs now (world st)) (pending st)
  end.

Definition run (st : State) (t : list Event) : State := foldl step st t.

Definition reachable (st : State) : Prop := exists t, st = run initState t.

(** The synchronizer of a state. *)
Definition syncOf (st : State) : @CombatSynchronizer Mission := sync (world st).

(** What holds of every mission in every reachable state: a stored session
    or an activation inside [startCombat] holds the lock and is not
    completed, never both at once; a completed mission has no lock, no
    session and an archived result. *)
Record Inv (st : State) : Prop := mkInv {
  inv_session : forall m cd, activeCombats (syncOf st) !! m = Some cd ->
    m ∈ combatLocks (syncOf st) /\ pending st !! m = None;
  inv_pending : forall m, is_Some (pending st !! m) ->
    m ∈ combatLocks (syncOf st) /\ activeCombats (syncOf st) !! m = None;
  inv_locked : forall m, m ∈ combatLocks (syncOf st) -> m ∉ completedCombats (syncOf st);
  inv_completed : forall m, m ∈ completedCombats (syncOf st) ->
    is_Some (finalResults (syncOf st) !! m)
}.

End Synchronizer.

(** ** Concrete runs *)

(** Only listener [7] throws. *)
Definition exThrows (cb : nat) : bool := Nat.eqb cb 7.

(** No listener throws. *)
Definition exCalm (cb : nat) : bool := false.

(** Listener [8] is registered for ["m1"]; the collaborator reports the
    victory while it is still inside [startCombat]. *)
Definition exEarly : list (@Event unit) :=
  [EvRegister "m1" 8; EvEnterStart "m1" tt 0; EvUpdate "m1" exVictory 1500;
   EvReturnStart "m1" 1600].

(** ["m1"] is started; listeners [7] and [8] are registered; the victory
    arrives three seconds after the start. *)
Definition exNotify : list (@Event unit) :=
  [EvEnterStart "m1" tt 0; EvReturnStart "m1" 1000; EvRegister "m1" 7;
   EvRegister "m1" 8; EvUpdate "m1" exVictory 4000].

(** ["m1"] is started and listener [7] is registered. *)
Definition exStarted : list (@Event unit) :=
  [EvEnterStart "m1" tt 0; EvReturnStart "m1" 1000; EvRegister "m1" 7].

End SyncFine.

(* ===================================================================== *)
(** * Part II-c: perk selection                                           *)
(* ===================================================================== *)

(** [canSelect] of [SquadPerkTree.tsx]. *)
Module PerkTree.

Local Open Scope Q_scope.

(** [perk.requires] *)
Record Requires := mkRequires {
  req_level : option Q;
  req_perks : option (list string)
}.

Record Perk := mkPerk {
  perk_id : string;
  requires : option Requires
}.

(** The fields of the squad member the component reads. *)
Record Member := mkMember {
  perks : option (list string);
  perkPoints : option Q;
  level : option Q
}.

(** [new Set(member.perks || [])] *)
Definition owned (member : Member) : gset string :=
  list_to_set (default [] (perks member)).

(** [member.perkPoints || 0] *)
Definition points (member : Member) : Q :=
  match perkPoints member with
  | Some p => Formula.orElse p 0
  | None => 0
  end.

(** [member.level || 1] *)
Definition memberLevel (member : Member) : Q :=
  match level member with
  | Some l => Formula.orElse l 1
  | None => 1
  end.

(** [perk.requires?.level ?? 1] *)
Definition levelReq (perk : Perk) : Q :=
  match requires perk with
  | Some r => Formula.nullish (req_level r) 1
  | None => 1
  end.

(** [perk.requires?.perks || []] *)
Definition prior (perk : Perk) : list string :=
  match requires perk with
  | Some r => default [] (req_perks r)
  | None => []
  end.

Definition canSelect (member : Member) (perk : Perk) : bool :=
  if (bool_decide (perk_id perk ∈ owned member) || Qle_bool (points member) 0)%bool
  then false
  else if Formula.Qltb (memberLevel member) (levelReq perk) then false
  else forallb (fun p => bool_decide (p ∈ owned member)) (prior perk).

(** A level-3 member with one point who owns "aim", later promoted. *)
Definition exRecruit : Member := mkMember (Some ["aim"]) (Some 1) (Some 3).
Definition exVeteran : Member := mkMember (Some ["aim"; "medic"]) (Some 2) (Some 5).
Definition exSniper : Perk :=
  mkPerk "sniper" (Some (mkRequires (Some 3) (Some ["aim"]))).
Definition exLoop : Perk :=
  mkPerk "loop" (Some (mkRequires None (Some ["aim"; "loop"]))).

End PerkTree.

(* ===================================================================== *)
(** * Part III: properties of the synchronizer                            *)
(* ===================================================================== *)

Module SyncTheory.

Import Sync.

Section SynchronizerFacts.

Context {Mission Unit : Type}.

Local Abbreviation World := (@World Mission).
Local Abbreviation CombatSynchronizer := (@CombatSynchronizer Mission).
Local Abbreviation Event := (@Event Mission Unit).
Local Abbreviation reachable := (@reachable Mission Unit).
Local Abbreviation initWorld := (@initWorld Mission).

Implicit Types (w : World) (s : CombatSynchronizer) (e : Event) (t : list Event).
Implicit Types (squad enemies sq en : list Unit) (mission mi : Mission).

(** ** Preservation of the invariant *)

Lemma onUpdate_absent missionId state now w :
  activeCombats (sync w) !! missionId = None -> onUpdate missionId state now w = w.
Proof. intros H. unfold onUpdate. now rewrite H. Qed.

Lemma onUpdate_nonterminal missionId state now w :
  victory state = None -> onUpdate missionId state now w = w.
Proof.
  intros H. unfold onUpdate. rewrite H.
  now destruct (activeCombats (sync w) !! missionId).
Qed.

Lemma syncUpdates_absent missionId (ups : list (RealCombatState * Z)) w :
  activeCombats (sync w) !! missionId = None ->
  foldl (fun acc u => onUpdate missionId u.1 u.2 acc) w ups = w.
Proof.
  intros H. induction ups as [|u ups IH]; simpl; [reflexivity|].
  now rewrite onUpdate_absent.
Qed.

Lemma startsOf_app missionId s es es' :
  startsOf missionId (mkWorld s (es ++ es')) =
  startsOf missionId (mkWorld s es) + length (filter (fun eff => isStartOf missionId eff = true) es').
Proof. unfold startsOf. simpl. now rewrite filter_app, length_app. Qed.

Lemma startsOf_sync missionId s s' es :
  startsOf missionId (mkWorld s es) = startsOf missionId (mkWorld s' es).
Proof. reflexivity. Qed.

Lemma no_start_in_calls missionId m v d (cbs : list nat) :
  filter (fun eff => isStartOf missionId eff = true)
         (map (fun cb => EffCallback m cb v d) cbs) = [].
Proof.
  induction cbs as [|cb cbs IH]; simpl; [reflexivity|].
  rewrite filter_cons_False; [exact IH | simpl; discriminate].
Qed.

Lemma Inv_init : Inv initWorld.
Proof.
  split; simpl.
  - intros m cd H. rewrite lookup_empty in H. discriminate.
  - intros m. rewrite lookup_empty. split; [set_solver | intros [? ?]; discriminate].
  - set_solver.
  - intros m. rewrite lookup_empty. split; [set_solver | intros [? ?]; discriminate].
  - intros m. case_decide; [set_solver | reflexivity].
Qed.

Lemma Inv_onUpdate missionId state now w : Inv w -> Inv (onUpdate missionId state now w).
Proof.
  intros [Hlive Hlock Hdone Harch Hstarts]. unfold onUpdate.
  destruct (activeCombats (sync w) !! missionId) as [cd|] eqn:Hcd;
    [|now split].
  destruct (victory state) as [v|]; [|now split].
  assert (Hin : missionId ∈ combatLocks (sync w)) by (apply Hlock; eauto).
  split; simpl.
  - intros m cd' H. rewrite delete_insert_eq in H.
    apply lookup_delete_Some in H as [_ H]. eauto.
  - intros m. rewrite delete_insert_eq, elem_of_difference, elem_of_singleton.
    rewrite Hlock. split.
    + intros [[x Hx] Hne]. exists x. now rewrite lookup_delete_ne.
    + intros [x Hx]. apply lookup_delete_Some in Hx as [Hne Hx]. split; eauto.
  - intros m Hm. set_solver.
  - intros m. rewrite elem_of_union, elem_of_singleton.
    destruct (decide (missionId = m)) as [->|Hne].
    + rewrite lookup_insert_eq. split; eauto.
    + rewrite lookup_insert_ne by done. rewrite <- Harch. set_solver.
  - intros m. rewrite startsOf_app, no_start_in_calls. simpl.
    rewrite Nat.add_0_r, (startsOf_sync m _ (sync w)).
    replace (mkWorld (sync w) (effects w)) with w by now destruct w.
    rewrite Hstarts.
    destruct (decide (m = missionId)) as [->|Hne].
    + rewrite decide_True by auto. rewrite decide_True by set_solver. reflexivity.
    + apply decide_ext. set_solver.
Qed.

Lemma Inv_onCombatComplete missionId callback w :
  Inv w -> Inv (onCombatComplete missionId callback w).
Proof. intros [Hlive Hlock Hdone Harch Hstarts]. now split. Qed.

Lemma Inv_forceCombatEnd missionId cs now w :
  Inv w -> Inv (forceCombatEnd missionId cs now w).
Proof.
  intros [Hlive Hlock Hdone Harch Hstarts]. unfold forceCombatEnd.
  destruct (activeCombats (sync w) !! missionId) as [cd|] eqn:Hcd;
    [|now split].
  destruct (isComplete cd); [now split|].
  assert (Hin : missionId ∈ combatLocks (sync w)) by (apply Hlock; eauto).
  split; simpl.
  - intros m cd' H. rewrite delete_insert_eq in H.
    apply lookup_delete_Some in H as [_ H]. eauto.
  - intros m. rewrite delete_insert_eq, elem_of_difference, elem_of_singleton.
    rewrite Hlock. split.
    + intros [[x Hx] Hne]. exists x. now rewrite lookup_delete_ne.
    + intros [x Hx]. apply lookup_delete_Some in Hx as [Hne Hx]. split; eauto.
  - intros m Hm. set_solver.
  - intros m. rewrite elem_of_union, elem_of_singleton.
    destruct (decide (missionId = m)) as [->|Hne].
    + rewrite lookup_insert_eq. split; eauto.
    + rewrite lookup_insert_ne by done. rewrite <- Harch. set_solver.
  - intros m. rewrite (startsOf_sync m _ (sync w)).
    replace (mkWorld (sync w) (effects w)) with w by now destruct w.
    rewrite Hstarts.
    destruct (decide (m = missionId)) as [->|Hne].
    + rewrite decide_True by auto. rewrite decide_True by set_solver. reflexivity.
    + apply decide_ext. set_solver.
Qed.

(** In a quiescent state the guards of [startSynchronizedCombat] pass
    exactly for a mission that was never started. *)
Lemma startGuardsPass_Inv w missionId :
  Inv w ->
  ((startGuardsPass (sync w) missionId = true) <->
   ((missionId ∉ completedCombats (sync w)) /\ (missionId ∉ combatLocks (sync w)))).
Proof.
  intros [Hlive Hlock Hdone Harch Hstarts]. unfold startGuardsPass.
  repeat case_decide; try (split; [discriminate | tauto]).
  destruct (activeCombats (sync w) !! missionId) as [cd|] eqn:Hcd; [|tauto].
  exfalso. apply H0, Hlock. eauto.
Qed.

Lemma startGuardsPass_absent w missionId :
  Inv w -> startGuardsPass (sync w) missionId = true ->
  activeCombats (sync w) !! missionId = None.
Proof.
  intros HI Hg. apply (startGuardsPass_Inv _ _ HI) in Hg as [_ Hl].
  destruct (activeCombats (sync w) !! missionId) eqn:E; [|reflexivity].
  exfalso. apply Hl, (inv_lock _ HI). eauto.
Qed.

(** On the path that passes the guards, from a quiescent state, the updates
    delivered inside [startCombat] find no session and change nothing. *)
Lemma startSynchronizedCombat_pass missionId squad enemies mission ai ups now w :
  Inv w -> startGuardsPass (sync w) missionId = true ->
  startSynchronizedCombat missionId squad enemies mission ai ups now w =
  mkWorld
    (mkSync (<[missionId := mkCombatData ai mission false 0%Q now]> (activeCombats (sync w)))
            (completedCombats (sync w)) (finalResults (sync w))
            ({[missionId]} ∪ combatLocks (sync w))
            (missionCompletionCallbacks (sync w)))
    (effects w ++ [EffStartCombat ai missionId]).
Proof.
  intros HI Hg. unfold startSynchronizedCombat. rewrite Hg.
  rewrite syncUpdates_absent; [reflexivity|].
  simpl. now apply startGuardsPass_absent.
Qed.

Lemma Inv_startSynchronizedCombat missionId squad enemies mission ai ups now w :
  Inv w -> Inv (startSynchronizedCombat missionId squad enemies mission ai ups now w).
Proof.
  intros HI.
  destruct (startGuardsPass (sync w) missionId) eqn:Hg;
    [|unfold startSynchronizedCombat; now rewrite Hg].
  rewrite startSynchronizedCombat_pass by assumption.
  pose proof (startGuardsPass_absent _ _ HI Hg) as Habs.
  apply (startGuardsPass_Inv _ _ HI) in Hg as [Hnc Hnl].
  destruct HI as [Hlive Hlock Hdone Harch Hstarts].
  split; simpl.
  - intros m cd H. apply lookup_insert_Some in H as [[_ <-]|[_ H]]; eauto.
  - intros m. rewrite elem_of_union, elem_of_singleton, Hlock.
    destruct (decide (missionId = m)) as [->|Hne].
    + rewrite lookup_insert_eq. split; eauto.
    + rewrite lookup_insert_ne by done. split; [intros [?|?]; [congruence|done] | auto].
  - intros m Hm. specialize (Hdone m Hm). set_solver.
  - exact Harch.
  - intros m. rewrite startsOf_app. simpl.
    rewrite (startsOf_sync m _ (sync w)).
    replace (mkWorld (sync w) (effects w)) with w by now destruct w.
    rewrite Hstarts.
    destruct (decide (m = missionId)) as [->|Hne].
    + rewrite filter_cons_True by (simpl; now rewrite bool_decide_eq_true).
      rewrite decide_False by tauto. rewrite decide_True by set_solver. reflexivity.
    + rewrite filter_cons_False
        by (simpl; rewrite bool_decide_eq_true; congruence).
      simpl. rewrite Nat.add_0_r. apply decide_ext. set_solver.
Qed.

Lemma Inv_step w e : Inv w -> Inv (step w e).
Proof.
  destruct e; simpl.
  - apply Inv_startSynchronizedCombat.
  - apply Inv_onUpdate.
  - apply Inv_onCombatComplete.
  - apply Inv_forceCombatEnd.
Qed.

Lemma Inv_run w t : Inv w -> Inv (run w t).
Proof.
  revert w. induction t as [|e t IH]; intros w HI; simpl; [exact HI|].
  apply IH, Inv_step, HI.
Qed.

Lemma reachable_Inv w : reachable w -> Inv w.
Proof. intros [t ->]. apply Inv_run, Inv_init. Qed.

Lemma reachable_init : reachable initWorld.
Proof. now exists []. Qed.

Lemma run_app w t t' : run w (t ++ t') = run (run w t) t'.
Proof. unfold run. apply foldl_app. Qed.

Lemma reachable_run w t : reachable w -> reachable (run w t).
Proof. intros [t0 ->]. exists (t0 ++ t). now rewrite run_app. Qed.

Lemma reachable_step w e : reachable w -> reachable (step w e).
Proof. intros H. apply (reachable_run w [e] H). Qed.

(** ** Missions do not interfere *)

Lemma no_callback_of_other m m' v d (cbs : list nat) :
  m <> m' ->
  filter (fun eff => isCallbackOf m eff = true)
         (map (fun cb => EffCallback m' cb v d) cbs) = [].
Proof.
  intros Hne. induction cbs as [|cb cbs IH]; simpl; [reflexivity|].
  rewrite filter_cons_False; [exact IH|].
  simpl. rewrite bool_decide_eq_true. congruence.
Qed.

Lemma onUpdate_other m m' state now w :
  m <> m' -> viewAt m (onUpdate m' state now w) = viewAt m w.
Proof.
  intros Hne. unfold onUpdate.
  destruct (activeCombats (sync w) !! m') as [cd|]; [|reflexivity].
  destruct (victory state) as [v|]; [|reflexivity].
  unfold viewAt, callbacksFor. simpl.
  rewrite lookup_delete_ne, !lookup_insert_ne by congruence.
  rewrite filter_app, no_callback_of_other, app_nil_r by assumption.
  repeat f_equal; apply bool_decide_ext; set_solver.
Qed.

Lemma forceCombatEnd_other m m' cs now w :
  m <> m' -> viewAt m (forceCombatEnd m' cs now w) = viewAt m w.
Proof.
  intros Hne. unfold forceCombatEnd.
  destruct (activeCombats (sync w) !! m') as [cd|]; [|reflexivity].
  destruct (isComplete cd); [reflexivity|].
  unfold viewAt, callbacksFor. simpl.
  rewrite lookup_delete_ne, !lookup_insert_ne by congruence.
  repeat f_equal; apply bool_decide_ext; set_solver.
Qed.

Lemma syncUpdates_other m m' (ups : list (RealCombatState * Z)) w :
  m <> m' ->
  viewAt m (foldl (fun acc u => onUpdate m' u.1 u.2 acc) w ups) = viewAt m w.
Proof.
  intros Hne. revert w. induction ups as [|u ups IH]; intros w; simpl; [reflexivity|].
  rewrite IH. now apply onUpdate_other.
Qed.

Lemma startSynchronizedCombat_other m m' squad enemies mission ai ups now w :
  m <> m' ->
  viewAt m (startSynchronizedCombat m' squad enemies mission ai ups now w) = viewAt m w.
Proof.
  intros Hne. unfold startSynchronizedCombat.
  destruct (startGuardsPass (sync w) m'); [|reflexivity].
  match goal with
  | |- context [foldl ?f ?w1 ups] =>
      pose proof (syncUpdates_other m m' ups w1 Hne) as Hv;
      destruct (foldl f w1 ups) as [s2 es2] eqn:E
  end.
  unfold viewAt, callbacksFor in *. simpl in *.
  rewrite lookup_insert_ne by congruence.
  rewrite filter_app in Hv. simpl in Hv. rewrite app_nil_r in Hv.
  injection Hv as -> Hc -> Hl ->.
  repeat f_equal.
  - exact Hc.
  - rewrite Hl. apply bool_decide_ext. set_solver.
Qed.

Lemma onCombatComplete_view m m' callback w :
  viewAt m (onCombatComplete m' callback w) = viewAt m w.
Proof. reflexivity. Qed.

Lemma step_other m e w : missionOf e <> m -> viewAt m (step w e) = viewAt m w.
Proof.
  intros Hne. destruct e; simpl in *.
  - now apply startSynchronizedCombat_other.
  - now apply onUpdate_other.
  - apply onCombatComplete_view.
  - now apply forceCombatEnd_other.
Qed.

(** ** Completed missions *)

Lemma startSynchronizedCombat_completed m squad enemies mission ai ups now w :
  m ∈ completedCombats (sync w) ->
  startSynchronizedCombat m squad enemies mission ai ups now w = w.
Proof.
  intros H. unfold startSynchronizedCombat, startGuardsPass.
  now rewrite decide_True.
Qed.

Lemma forceCombatEnd_absent m cs now w :
  activeCombats (sync w) !! m = None -> forceCombatEnd m cs now w = w.
Proof. intros H. unfold forceCombatEnd. now rewrite H. Qed.

Lemma absorbed_step_view m e w :
  absorbed m w -> viewAt m (step w e) = viewAt m w.
Proof.
  intros (Hc & Ha & Hl).
  destruct (decide (missionOf e = m)) as [<-|Hne]; [|now apply step_other].
  destruct e; simpl in *.
  - now rewrite startSynchronizedCombat_completed.
  - now rewrite onUpdate_absent.
  - reflexivity.
  - now rewrite forceCombatEnd_absent.
Qed.

Lemma absorbed_view m w w' : viewAt m w' = viewAt m w -> absorbed m w -> absorbed m w'.
Proof.
  unfold viewAt, absorbed. intros Hv (Hc & Ha & Hl).
  injection Hv as Hv1 Hv2 _ Hv4 _.
  rewrite Hv1. split; [|split]; [|assumption|].
  - apply (bool_decide_eq_true_1 _). rewrite Hv2. now apply bool_decide_eq_true_2.
  - intros Hin. apply Hl. apply (bool_decide_eq_true_1 _). rewrite <- Hv4.
    now apply bool_decide_eq_true_2.
Qed.

Lemma absorbed_run_view m t w :
  absorbed m w -> viewAt m (run w t) = viewAt m w /\ absorbed m (run w t).
Proof.
  revert w. induction t as [|e t IH]; intros w Ha; simpl; [now split|].
  pose proof (absorbed_step_view m e w Ha) as Hv.
  pose proof (absorbed_view m w _ Hv Ha) as Ha'.
  destruct (IH _ Ha') as [Hv' Ha'']. split; [congruence | assumption].
Qed.

Lemma Inv_absorbed m w : Inv w -> m ∈ completedCombats (sync w) -> absorbed m w.
Proof.
  intros HI Hc. pose proof (inv_done _ HI m Hc) as Hl.
  split; [assumption|]. split; [|assumption].
  destruct (activeCombats (sync w) !! m) eqn:E; [|reflexivity].
  exfalso. apply Hl, (inv_lock _ HI). eauto.
Qed.

(** ** Started missions *)

Lemma startGuardsPass_live s m : liveSession s m -> startGuardsPass s m = false.
Proof.
  intros (cd & Hcd & Hc). unfold startGuardsPass.
  repeat case_decide; try reflexivity. now rewrite Hcd.
Qed.

Lemma startSynchronizedCombat_guarded m squad enemies mission ai ups now w :
  startGuardsPass (sync w) m = false ->
  startSynchronizedCombat m squad enemies mission ai ups now w = w.
Proof. intros H. unfold startSynchronizedCombat. now rewrite H. Qed.

Lemma startSynchronizedCombat_registers m squad enemies mission ai ups now w :
  startGuardsPass (sync w) m = true ->
  activeCombats (sync (startSynchronizedCombat m squad enemies mission ai ups now w)) !! m
  = Some (mkCombatData ai mission false 0%Q now).
Proof.
  intros H. unfold startSynchronizedCombat. rewrite H. simpl.
  apply lookup_insert_eq.
Qed.


Lemma started_view m w w' : viewAt m w' = viewAt m w -> started m w -> started m w'.
Proof.
  unfold viewAt, started. intros Hv Hs.
  injection Hv as _ Hv2 _ Hv4 _.
  destruct Hs as [Hs|Hs]; [left|right]; apply (bool_decide_eq_true_1 _).
  - rewrite Hv4. now apply bool_decide_eq_true_2.
  - rewrite Hv2. now apply bool_decide_eq_true_2.
Qed.

Lemma started_step m e w : Inv w -> started m w -> started m (step w e).
Proof.
  intros HI Hs.
  destruct (decide (missionOf e = m)) as [<-|Hne];
    [|eapply started_view; [now apply step_other | assumption]].
  destruct e as [m sq en mi ai ups now|m st now|m cb|m cs now]; simpl in *.
  - rewrite startSynchronizedCombat_guarded; [assumption|].
    destruct (startGuardsPass (sync w) m) eqn:Hg; [|reflexivity].
    apply (startGuardsPass_Inv _ _ HI) in Hg. unfold started in Hs. tauto.
  - unfold onUpdate.
    destruct (activeCombats (sync w) !! m); [|assumption].
    destruct (victory st); [|assumption].
    right. simpl. set_solver.
  - assumption.
  - unfold forceCombatEnd.
    destruct (activeCombats (sync w) !! m) as [cd|]; [|assumption].
    destruct (isComplete cd); [assumption|].
    right. simpl. set_solver.
Qed.

Lemma started_run m t w : Inv w -> started m w -> started m (run w t).
Proof.
  revert w. induction t as [|e t IH]; intros w HI Hs; simpl; [assumption|].
  apply IH; [now apply Inv_step | now apply started_step].
Qed.

(** An event that is neither a terminal update nor a forced end for [m]
    leaves a live session of [m] as it is. *)
Lemma live_step_view m e w :
  liveSession (sync w) m -> ~ endsMission m e -> viewAt m (step w e) = viewAt m w.
Proof.
  intros Hl He.
  destruct (decide (missionOf e = m)) as [<-|Hne]; [|now apply step_other].
  destruct e as [m sq en mi ai ups now|m st now|m cb|m cs now]; simpl in *.
  - rewrite startSynchronizedCombat_guarded; [reflexivity|].
    now apply startGuardsPass_live.
  - rewrite onUpdate_nonterminal; [reflexivity|].
    destruct (victory st); [|reflexivity]. exfalso. apply He. split; [reflexivity|discriminate].
  - reflexivity.
  - now contradiction He.
Qed.

Lemma liveSession_view m w w' :
  viewAt m w' = viewAt m w -> liveSession (sync w) m -> liveSession (sync w') m.
Proof.
  unfold viewAt, liveSession. intros Hv (cd & Hcd & Hc).
  injection Hv as Hv1 _ _ _ _. exists cd. now rewrite Hv1.
Qed.

Lemma live_run_view m t w :
  liveSession (sync w) m -> Forall (fun e => ~ endsMission m e) t ->
  viewAt m (run w t) = viewAt m w.
Proof.
  revert w. induction t as [|e t IH]; intros w Hl Ht; simpl; [reflexivity|].
  inversion Ht as [|? ? He Ht']; subst.
  pose proof (live_step_view m e w Hl He) as Hv.
  rewrite IH; [assumption | | assumption].
  now apply (liveSession_view m w).
Qed.

Lemma registrations_callbacks m (cbs : list nat) w :
  let w1 := foldl (fun acc cb => onCombatComplete m cb acc) w cbs in
  callbacksOf (sync w1) m = callbacksOf (sync w) m ++ cbs
  /\ activeCombats (sync w1) = activeCombats (sync w)
  /\ effects w1 = effects w.
Proof.
  revert w. induction cbs as [|cb cbs IH]; intros w; simpl.
  - now rewrite app_nil_r.
  - destruct (IH (onCombatComplete m cb w)) as (H1 & H2 & H3).
    rewrite H1, H2, H3. split; [|split]; try reflexivity.
    unfold callbacksOf at 1. simpl. rewrite lookup_insert_eq. simpl.
    now rewrite <- app_assoc.
Qed.

(** ** The claims about the synchronizer *)


(** C3.  Once a mission id is in [completedCombats] of a reachable state,
    then after any further events it is still there, every
    [startSynchronizedCombat] for it returns the state unchanged, it has no
    session, [isCombatActive] is false, and [getCombatResults] returns the
    value it returned at completion, which is present. *)
Theorem C3_completion_is_absorbing (w : World) (missionId : string) (t : list Event) :
  reachable w ->
  missionId ∈ completedCombats (sync w) ->
  let w' := run w t in
  missionId ∈ completedCombats (sync w')
  /\ (forall squad enemies mission ai ups now,
        startSynchronizedCombat missionId squad enemies mission ai ups now w' = w')
  /\ activeCombats (sync w') !! missionId = None
  /\ isCombatActive (sync w') missionId = false
  /\ getCombatResults (sync w') missionId = getCombatResults (sync w) missionId
  /\ is_Some (getCombatResults (sync w) missionId).
Proof.
  intros Hr Hc w'. pose proof (reachable_Inv _ Hr) as HI.
  pose proof (Inv_absorbed _ _ HI Hc) as Ha.
  destruct (absorbed_run_view missionId t w Ha) as [Hview (Hc' & Ha' & Hl')].
  fold w' in Hview, Hc', Ha', Hl'.
  split; [assumption|]. split.
  { intros. now apply startSynchronizedCombat_completed. }
  split; [assumption|]. split.
  { unfold isCombatActive. rewrite Ha'. simpl. now apply bool_decide_eq_false_2. }
  split.
  { unfold viewAt in Hview. unfold getCombatResults. now injection Hview. }
  now apply (inv_archive _ HI).
Qed.

(** C9.  When [startSynchronizedCombat] passes its guards in a reachable
    state, every update the collaborator delivers before [startCombat]
    returns, terminal ones included, finds no session: nothing is archived,
    no listener is called or dropped, the mission is not marked completed.
    The session registered afterwards stays registered and live, and the
    mission has no result, through every sequence of later events that
    contains no forced end and no further terminal update for this mission
    (the collaborator emits only one); [forceCombatEnd] does end it. *)
Theorem C9_update_before_registration_is_lost
    (w : World) (missionId : string) (squad enemies : list Unit) (mission : Mission)
    (ai : nat) (ups : list (RealCombatState * Z)) (now : Z) :
  reachable w ->
  startGuardsPass (sync w) missionId = true ->
  let w' := startSynchronizedCombat missionId squad enemies mission ai ups now w in
  let session := mkCombatData ai mission false 0%Q now in
  finalResults (sync w') = finalResults (sync w)
  /\ completedCombats (sync w') = completedCombats (sync w)
  /\ missionCompletionCallbacks (sync w') = missionCompletionCallbacks (sync w)
  /\ effects w' = effects w ++ [EffStartCombat ai missionId]
  /\ activeCombats (sync w') !! missionId = Some session
  /\ forall t, Forall (fun e => ~ endsMission missionId e) t ->
       let w'' := run w' t in
       activeCombats (sync w'') !! missionId = Some session
       /\ isCombatActive (sync w'') missionId = true
       /\ (missionId ∉ completedCombats (sync w''))
       /\ getCombatResults (sync w'') missionId = None
       /\ callbacksFor missionId w'' = callbacksFor missionId w
       /\ forall cs now',
            let wf := forceCombatEnd missionId cs now' w'' in
            missionId ∈ completedCombats (sync wf)
            /\ activeCombats (sync wf) !! missionId = None
            /\ fr_victory <$> getCombatResults (sync wf) missionId = Some false.
Proof.
  intros Hr Hg w' session. pose proof (reachable_Inv _ Hr) as HI.
  assert (Hw' : w' = mkWorld
    (mkSync (<[missionId := session]> (activeCombats (sync w)))
            (completedCombats (sync w)) (finalResults (sync w))
            ({[missionId]} ∪ combatLocks (sync w))
            (missionCompletionCallbacks (sync w)))
    (effects w ++ [EffStartCombat ai missionId]))
    by now apply startSynchronizedCombat_pass.
  pose proof (proj1 (startGuardsPass_Inv _ _ HI) Hg) as [Hnc Hnl].
  assert (Hlive : liveSession (sync w') missionId).
  { exists session. rewrite Hw'. simpl. now rewrite lookup_insert_eq. }
  do 4 (split; [now rewrite Hw'|]).
  split; [rewrite Hw'; apply lookup_insert_eq|].
  intros t Ht w''.
  pose proof (live_run_view missionId t w' Hlive Ht) as Hview.
  fold w'' in Hview. unfold viewAt in Hview.
  injection Hview as Hv1 Hv2 Hv3 Hv4 Hv5.
  assert (Hs : activeCombats (sync w'') !! missionId = Some session).
  { rewrite Hv1, Hw'. simpl. apply lookup_insert_eq. }
  split; [exact Hs|]. split.
  { unfold isCombatActive. now rewrite Hs. }
  split.
  { intros Hin. apply Hnc. apply (bool_decide_eq_true_1 _).
    rewrite Hw' in Hv2. simpl in Hv2. rewrite <- Hv2.
    now apply bool_decide_eq_true_2. }
  split.
  { unfold getCombatResults. rewrite Hv3, Hw'. simpl.
    destruct (finalResults (sync w) !! missionId) eqn:E; [|reflexivity].
    exfalso. apply Hnc, (inv_archive _ HI). eauto. }
  split.
  { rewrite Hv5, Hw'. unfold callbacksFor. simpl.
    rewrite filter_app. simpl. rewrite filter_cons_False by (simpl; discriminate).
    now rewrite filter_nil, app_nil_r. }
  intros cs now' wf. unfold wf, forceCombatEnd, getCombatResults. rewrite Hs. simpl.
  split; [set_solver|]. split.
  - rewrite delete_insert_eq. apply lookup_delete_eq.
  - now rewrite lookup_insert_eq.
Qed.

(** ** Further properties of the synchronizer *)

Lemma bool_decide_eq_iff (P R : Prop) `{Decision P, Decision R} :
  bool_decide P = bool_decide R -> (P <-> R).
Proof.
  intros H1. split; intros HP; apply (bool_decide_eq_true_1 _).
  - rewrite <- H1. now apply bool_decide_eq_true_2.
  - rewrite H1. now apply bool_decide_eq_true_2.
Qed.

Lemma onUpdate_removes_session missionId state now w :
  victory state <> None ->
  activeCombats (sync (onUpdate missionId state now w)) !! missionId = None.
Proof.
  intros Hv. unfold onUpdate.
  destruct (activeCombats (sync w) !! missionId) as [cd|] eqn:Hcd; [|exact Hcd].
  destruct (victory state) as [v|]; [|contradiction].
  simpl. rewrite delete_insert_eq. apply lookup_delete_eq.
Qed.

Lemma forceCombatEnd_removes_live missionId cs now w :
  liveSession (sync w) missionId ->
  activeCombats (sync (forceCombatEnd missionId cs now w)) !! missionId = None.
Proof.
  intros (cd & Hcd & Hc). unfold forceCombatEnd. rewrite Hcd, Hc. simpl.
  rewrite delete_insert_eq. apply lookup_delete_eq.
Qed.

Lemma onUpdate_other_callbacks m m' state now w :
  m <> m' ->
  missionCompletionCallbacks (sync (onUpdate m' state now w)) !! m
  = missionCompletionCallbacks (sync w) !! m.
Proof.
  intros Hne. unfold onUpdate.
  destruct (activeCombats (sync w) !! m'); [|reflexivity].
  destruct (victory state); [|reflexivity].
  simpl. now rewrite lookup_delete_ne by congruence.
Qed.

Lemma syncUpdates_other_callbacks m m' (ups : list (RealCombatState * Z)) w :
  m <> m' ->
  missionCompletionCallbacks
    (sync (foldl (fun acc u => onUpdate m' u.1 u.2 acc) w ups)) !! m
  = missionCompletionCallbacks (sync w) !! m.
Proof.
  intros Hne. revert w. induction ups as [|u ups IH]; intros w; simpl; [reflexivity|].
  rewrite IH. now apply onUpdate_other_callbacks.
Qed.

Lemma step_other_callbacks m e w :
  missionOf e <> m ->
  missionCompletionCallbacks (sync (step w e)) !! m
  = missionCompletionCallbacks (sync w) !! m.
Proof.
  intros Hne.
  destruct e as [m' sq en mi ai ups now|m' st now|m' cb|m' cs now]; simpl in *.
  - unfold startSynchronizedCombat.
    destruct (startGuardsPass (sync w) m'); [|reflexivity].
    simpl. now rewrite syncUpdates_other_callbacks by congruence.
  - now apply onUpdate_other_callbacks.
  - now rewrite lookup_insert_ne.
  - unfold forceCombatEnd.
    destruct (activeCombats (sync w) !! m') as [cd|]; [|reflexivity].
    destruct (isComplete cd); [reflexivity|].
    simpl. now rewrite lookup_delete_ne.
Qed.

Lemma absorbed_step_keeps_listener m e w cb :
  absorbed m w -> cb ∈ callbacksOf (sync w) m -> cb ∈ callbacksOf (sync (step w e)) m.
Proof.
  intros (Hc & Ha & Hl) Hin.
  destruct (decide (missionOf e = m)) as [<-|Hne].
  - destruct e as [m sq en mi ai ups now|m st now|m cb'|m cs now]; simpl in *.
    + now rewrite startSynchronizedCombat_completed.
    + now rewrite onUpdate_absent.
    + unfold callbacksOf at 1. simpl. rewrite lookup_insert_eq. simpl.
      apply elem_of_app. now left.
    + now rewrite forceCombatEnd_absent.
  - unfold callbacksOf in *. now rewrite step_other_callbacks.
Qed.

Lemma absorbed_run_keeps_listener m t w cb :
  absorbed m w -> cb ∈ callbacksOf (sync w) m -> cb ∈ callbacksOf (sync (run w t)) m.
Proof.
  revert w. induction t as [|e t IH]; intros w Ha Hin; simpl; [assumption|].
  apply IH.
  - eapply absorbed_view; [now apply absorbed_step_view | assumption].
  - now apply absorbed_step_keeps_listener.
Qed.

(** X2.  [forceCombatEnd] is idempotent: a second call for the same mission
    changes nothing, whatever the collaborator reports by then. *)
Theorem X2_forceCombatEnd_idempotent
    (w : World) (missionId : string) (cs1 cs2 : option RealCombatState) (now1 now2 : Z) :
  forceCombatEnd missionId cs2 now2 (forceCombatEnd missionId cs1 now1 w)
  = forceCombatEnd missionId cs1 now1 w.
Proof.
  destruct (activeCombats (sync w) !! missionId) as [cd|] eqn:Hcd.
  - destruct (isComplete cd) eqn:Hc.
    + assert (H : forceCombatEnd missionId cs1 now1 w = w)
        by (unfold forceCombatEnd; now rewrite Hcd, Hc).
      rewrite H. unfold forceCombatEnd. now rewrite Hcd, Hc.
    + apply forceCombatEnd_absent, forceCombatEnd_removes_live. now exists cd.
  - rewrite (forceCombatEnd_absent missionId cs1 now1 w Hcd).
    now apply forceCombatEnd_absent.
Qed.

(** X3.  After a forced end of a live session the synchronizer no longer
    listens to the collaborator: a later update for that mission, even one
    reporting a victory, changes nothing, and the archived result stays a
    defeat. *)
Theorem X3_update_after_forced_end_ignored
    (w : World) (missionId : string) (cs : option RealCombatState) (now : Z)
    (st : RealCombatState) (now' : Z) :
  liveSession (sync w) missionId ->
  let wf := forceCombatEnd missionId cs now w in
  onUpdate missionId st now' wf = wf
  /\ fr_victory <$> getCombatResults (sync (onUpdate missionId st now' wf)) missionId
     = Some false.
Proof.
  intros Hl wf.
  assert (H : onUpdate missionId st now' wf = wf)
    by (apply onUpdate_absent; now apply forceCombatEnd_removes_live).
  split; [exact H|]. rewrite H.
  destruct Hl as (cd & Hcd & Hc).
  unfold wf, forceCombatEnd, getCombatResults. rewrite Hcd, Hc. simpl.
  now rewrite lookup_insert_eq.
Qed.

(** X4.  An event addressed to one mission never changes what the
    synchronizer holds about another: its session, completion, lock,
    archived result, listener list, the listener calls made for it, and the
    answer of [isCombatActive]. *)
Theorem X4_missions_do_not_interfere (w : World) (e : Event) (m : string) :
  missionOf e <> m ->
  let w' := step w e in
  activeCombats (sync w') !! m = activeCombats (sync w) !! m
  /\ (m ∈ completedCombats (sync w') <-> m ∈ completedCombats (sync w))
  /\ (m ∈ combatLocks (sync w') <-> m ∈ combatLocks (sync w))
  /\ getCombatResults (sync w') m = getCombatResults (sync w) m
  /\ callbacksOf (sync w') m = callbacksOf (sync w) m
  /\ callbacksFor m w' = callbacksFor m w
  /\ isCombatActive (sync w') m = isCombatActive (sync w) m.
Proof.
  intros Hne w'.
  pose proof (step_other m e w Hne) as Hv. fold w' in Hv.
  pose proof (step_other_callbacks m e w Hne) as Hcb. fold w' in Hcb.
  unfold viewAt in Hv. injection Hv as Hv1 Hv2 Hv3 Hv4 Hv5.
  split; [exact Hv1|].
  split; [now apply (bool_decide_eq_iff _ _)|].
  split; [now apply (bool_decide_eq_iff _ _)|].
  split; [exact Hv3|].
  split; [unfold callbacksOf; now rewrite Hcb|].
  split; [exact Hv5|].
  unfold isCombatActive. now rewrite Hv1, Hv4.
Qed.

(** X5.  A listener registered after its mission has completed is never
    called, whatever happens later; it stays in the listener registry. *)
Theorem X5_late_listener_never_called
    (w : World) (missionId : string) (cb : nat) (t : list Event) :
  reachable w ->
  missionId ∈ completedCombats (sync w) ->
  let w' := run (onCombatComplete missionId cb w) t in
  callbacksFor missionId w' = callbacksFor missionId w
  /\ cb ∈ callbacksOf (sync w') missionId.
Proof.
  intros Hr Hc w'.
  pose proof (Inv_absorbed _ _ (reachable_Inv _ Hr) Hc) as Ha.
  assert (Ha1 : absorbed missionId (onCombatComplete missionId cb w)) by exact Ha.
  destruct (absorbed_run_view missionId t _ Ha1) as [Hview _].
  fold w' in Hview. unfold viewAt in Hview. injection Hview as _ _ _ _ Hv5.
  split; [exact Hv5|].
  apply absorbed_run_keeps_listener; [exact Ha1|].
  unfold callbacksOf at 1. simpl. rewrite lookup_insert_eq. simpl.
  apply elem_of_app. right. now apply list_elem_of_singleton.
Qed.

(** X22.  In a reachable state [startSynchronizedCombat] goes past its
    guards exactly when the mission is not active and has no archived
    result; then [isCombatActive] is true afterwards, and otherwise the
    call changes nothing. *)
Theorem X22_start_by_queries
    (w : World) (missionId : string) (squad enemies : list Unit) (mission : Mission)
    (ai : nat) (ups : list (RealCombatState * Z)) (now : Z) :
  reachable w ->
  let w' := startSynchronizedCombat missionId squad enemies mission ai ups now w in
  ((startGuardsPass (sync w) missionId = true)
   <-> (isCombatActive (sync w) missionId = false
        /\ getCombatResults (sync w) missionId = None))
  /\ (startGuardsPass (sync w) missionId = true ->
      isCombatActive (sync w') missionId = true)
  /\ (startGuardsPass (sync w) missionId = false -> w' = w).
Proof.
  intros Hr w'. pose proof (reachable_Inv _ Hr) as HI.
  split; [|split].
  - rewrite (startGuardsPass_Inv _ _ HI). unfold isCombatActive, getCombatResults.
    split.
    + intros [Hnc Hnl].
      destruct (activeCombats (sync w) !! missionId) as [cd|] eqn:Hcd.
      { exfalso. apply Hnl, (inv_lock _ HI). rewrite Hcd. eauto. }
      simpl. split; [now apply bool_decide_eq_false_2|].
      destruct (finalResults (sync w) !! missionId) eqn:E; [|reflexivity].
      exfalso. apply Hnc, (inv_archive _ HI). rewrite E. eauto.
    + intros [Ha Hres]. split.
      * intros Hc. apply (inv_archive _ HI) in Hc. rewrite Hres in Hc.
        destruct Hc; discriminate.
      * intros Hl. rewrite (bool_decide_eq_true_2 _ Hl), orb_true_r in Ha.
        discriminate.
  - intros Hg. unfold isCombatActive, w'.
    now rewrite startSynchronizedCombat_registers.
  - intros Hg. now apply startSynchronizedCombat_guarded.
Qed.

End SynchronizerFacts.

(** ** Concrete executions *)

Lemma exLive_reachable : reachable (Unit:=unit) exLive.
Proof. now exists [exStart]. Defined.

Lemma exCompleted_reachable : reachable (Unit:=unit) exCompleted.
Proof. now exists [exStart; EvUpdate "m1" exVictory 4000]. Defined.

(** The archive after the victory: the result, the duration in seconds and
    the last health of every combatant. *)
Example exCompleted_archive :
  getCombatResults (sync exCompleted) "m1"
  = Some (mkResult true (3000 # 1000)
            (<["raider" := (0 # 1)%Q]> (<["hero" := (80 # 1)%Q]> ∅)))
  /\ isCombatActive (sync exCompleted) "m1" = false
  /\ isCombatActive (sync exLive) "m1" = true
  /\ effects exCompleted = [EffStartCombat 0 "m1"].
Proof. repeat split; vm_compute; reflexivity. Qed.


Lemma C3_completion_is_absorbing_witness :
  reachable (Unit:=unit) exCompleted
  /\ "m1" ∈ completedCombats (sync exCompleted)
  /\ let w' := run exCompleted exLater in
     isCombatActive (sync w') "m1" = false
     /\ getCombatResults (sync w') "m1" = getCombatResults (sync exCompleted) "m1".
Proof.
  assert (Hc : "m1" ∈ completedCombats (sync exCompleted))
    by (apply (bool_decide_unpack _); vm_compute; exact I).
  split; [exact exCompleted_reachable|]. split; [exact Hc|].
  destruct (C3_completion_is_absorbing exCompleted "m1"
              exLater
              exCompleted_reachable Hc) as (_ & _ & _ & H4 & H5 & _).
  split; [exact H4 | exact H5].
Defined.

Lemma C9_update_before_registration_is_lost_witness :
  reachable (Unit:=unit) (@initWorld unit)
  /\ startGuardsPass (sync (@initWorld unit)) "m1" = true
  /\ let w' := startSynchronizedCombat "m1" ([] : list unit) [] tt 0 [(exVictory, 1500%Z)] 1600
                 initWorld in
     finalResults (sync w') = ∅
     /\ effects w' = [EffStartCombat 0 "m1"]
     /\ activeCombats (sync w') !! "m1" = Some (mkCombatData 0 tt false 0%Q 1600).
Proof.
  split; [exact (reachable_init (Unit:=unit))|]. split; [reflexivity|].
  destruct (C9_update_before_registration_is_lost initWorld "m1" ([] : list unit) [] tt 0
              [(exVictory, 1500%Z)] 1600 (reachable_init (Unit:=unit)) eq_refl)
    as (H1 & _ & _ & H4 & H5 & _).
  split; [exact H1|]. split; [exact H4 | exact H5].
Defined.

Lemma X3_update_after_forced_end_ignored_witness :
  liveSession (sync exRegistered) "m1"
  /\ onUpdate "m1" exVictory 9000 (forceCombatEnd "m1" (Some exSnapshot) 4000 exRegistered)
     = forceCombatEnd "m1" (Some exSnapshot) 4000 exRegistered.
Proof.
  assert (Hl : liveSession (sync exRegistered) "m1")
    by (exists exSession; split; reflexivity).
  split; [exact Hl|].
  exact (proj1 (X3_update_after_forced_end_ignored exRegistered "m1"
                  (Some exSnapshot) 4000 exVictory 9000 Hl)).
Defined.

(** A second mission starts while ["m1"] is live. *)
Lemma X4_missions_do_not_interfere_witness :
  missionOf (EvStart "m2" ([] : list unit) [] tt 1 [] 2000) <> "m1"
  /\ activeCombats (sync (step exRegistered (EvStart "m2" ([] : list unit) [] tt 1 [] 2000)))
       !! "m1" = activeCombats (sync exRegistered) !! "m1".
Proof.
  assert (H : missionOf (EvStart "m2" ([] : list unit) [] tt 1 [] 2000) <> "m1")
    by discriminate.
  split; [exact H|].
  exact (proj1 (X4_missions_do_not_interfere exRegistered _ "m1" H)).
Defined.

Lemma exCompleted_completed : "m1" ∈ completedCombats (sync exCompleted).
Proof. apply (bool_decide_unpack _). vm_compute. exact I. Defined.

Lemma X5_late_listener_never_called_witness :
  reachable (Unit:=unit) exCompleted
  /\ "m1" ∈ completedCombats (sync exCompleted)
  /\ callbacksFor "m1" (run (onCombatComplete "m1" 9 exCompleted) exLater)
     = callbacksFor "m1" exCompleted.
Proof.
  split; [exact exCompleted_reachable|]. split; [exact exCompleted_completed|].
  exact (proj1 (X5_late_listener_never_called exCompleted "m1" 9 exLater
                  exCompleted_reachable exCompleted_completed)).
Defined.

Lemma X22_start_by_queries_witness :
  reachable (Unit:=unit) exLive
  /\ (startGuardsPass (sync exLive) "m2" = true ->
      isCombatActive
        (sync (startSynchronizedCombat "m2" ([] : list unit) [] tt 1 [] 2000 exLive))
        "m2" = true).
Proof.
  split; [exact exLive_reachable|].
  destruct (X22_start_by_queries exLive "m2" ([] : list unit) [] tt 1 [] 2000
              exLive_reachable) as (_ & H2 & _).
  exact H2.
Defined.

End SyncTheory.

(* ===================================================================== *)
(** * Part IV: properties of the formula                                  *)
(* ===================================================================== *)

Module FormulaTheory.

Import Formula.

Local Open Scope Q_scope.

Section EngineFacts.

Context {Member : Type} `{!Imports Member}.

(** ** Arithmetic of the formula *)

Lemma Qltb_true x y : Qltb x y = true <-> x < y.
Proof.
  unfold Qltb. rewrite negb_true_iff. split.
  - intros H. apply Qnot_le_lt. intros Hle.
    apply Qle_bool_iff in Hle. congruence.
  - intros H. destruct (Qle_bool y x) eqn:E; [|reflexivity].
    apply Qle_bool_iff in E. exfalso. apply (Qlt_not_le _ _ H E).
Qed.

Lemma Qltb_false x y : Qltb x y = false <-> y <= x.
Proof.
  unfold Qltb. rewrite negb_false_iff. apply Qle_bool_iff.
Qed.


Lemma powerFactor_pos pr : 0 < powerFactor pr.
Proof.
  unfold powerFactor. destruct (Qltb 2 pr); [reflexivity|].
  destruct (Qltb pr (1 # 2)); reflexivity.
Qed.

Lemma fold_sum_ge {A : Type} (f : A -> Q) (l : list A) (a : Q) :
  Forall (fun x => 0 <= f x) l -> a <= fold_left (fun s x => s + f x) l a.
Proof.
  revert a. induction l as [|x l IH]; intros a Hl; simpl; [lra|].
  inversion Hl as [|? ? Hx Hl']; subst.
  specialize (IH (a + f x) Hl'). lra.
Qed.

Lemma sumOf_nonneg {A : Type} (f : A -> Q) (l : list A) :
  Forall (fun x => 0 <= f x) l -> 0 <= sumOf f l.
Proof. apply fold_sum_ge. Qed.

Lemma half_le_max x : 1 # 2 <= Qmax (1 # 2) x.
Proof. apply Q.le_max_l. Qed.



Lemma difficultyModifier_ge_1 difficulty :
  (forall x, 1 <= x -> 1 <= pow_1_5 x) ->
  1 <= pow_1_5 (Qmax 1 (orElse difficulty 1)).
Proof. intros Hpow. apply Hpow, Q.le_max_l. Qed.

Lemma totalEnemyHealth_nonneg (enemies : list Enemy) :
  Forall (fun e => match health e with Some h => 0 <= h | None => True end) enemies ->
  0 <= sumOf (fun e => nullish (health e) 40 * 30) enemies.
Proof.
  intros H. apply sumOf_nonneg.
  eapply Forall_impl; [exact H|]. intros e He. simpl in He.
  unfold nullish. destruct (health e); lra.
Qed.

Lemma adjustedCombat_nonneg squadMembers enemies difficulty :
  (forall x, 1 <= x -> 1 <= pow_1_5 x) ->
  Forall (fun e => match health e with Some h => 0 <= h | None => True end) enemies ->
  0 <= adjustedCombat squadMembers enemies difficulty.
Proof.
  intros Hpow Hh. unfold adjustedCombat.
  pose proof (totalEnemyHealth_nonneg enemies Hh) as Ht.
  pose proof (half_le_max (sumOf computeMemberDps squadMembers)) as Hs.
  pose proof (difficultyModifier_ge_1 difficulty Hpow) as Hm.
  match goal with |- 0 <= _ * _ * powerFactor ?pr => pose proof (powerFactor_pos pr) as Hf end.
  apply Qmult_le_0_compat; [|lra].
  apply Qmult_le_0_compat; [|lra].
  apply Qle_shift_div_l; lra.
Qed.

(** ** The claims about the formula *)



(** ** Further properties of the formula *)




Lemma orElse_max d : Qmax 1 (orElse d 1) == Qmax 1 d.
Proof.
  unfold orElse. destruct (Qeq_bool d 0) eqn:E; [|reflexivity].
  apply Qeq_bool_eq in E. rewrite E.
  rewrite (Q.max_l 1 1) by lra. rewrite (Q.max_l 1 0) by lra. reflexivity.
Qed.

Lemma terrainFactor_ge location : 13 # 10 <= terrainFactor location.
Proof.
  unfold terrainFactor.
  repeat match goal with |- context [if ?b then _ else _] => destruct b end;
    unfold Qle; simpl; lia.
Qed.

Lemma subFactor_ge subTerrain : 9 # 10 <= subFactor subTerrain.
Proof.
  unfold subFactor.
  repeat match goal with |- context [if ?b then _ else _] => destruct b end;
    unfold Qle; simpl; lia.
Qed.

Lemma clamp_ge_of_ge (n : Z) :
  (21 <= n)%Z -> 21 <= clamp (inject_Z n) 9 600.
Proof.
  intros Hn. unfold clamp.
  assert (H1 : 21 <= inject_Z n) by (unfold Qle; simpl; lia).
  apply Q.max_le_iff. right. apply Q.min_glb; [unfold Qle; simpl; lia | assumption].
Qed.

Lemma fold_core_bounds (cores : list CoreStats) (a : Q * Q) :
  Forall (fun c => (0 <= intelligence c /\ intelligence c <= 10)
                   /\ (0 <= survival c /\ survival c <= 10)) cores ->
  let r := fold_left (fun a c => (a.1 + intelligence c, a.2 + survival c)) cores a in
  let n := inject_Z (Z.of_nat (length cores)) in
  (a.1 <= r.1 /\ r.1 <= a.1 + 10 * n) /\ (a.2 <= r.2 /\ r.2 <= a.2 + 10 * n).
Proof.
  revert a. induction cores as [|c cores IH]; intros a Hall; cbv zeta.
  - cbn [fold_left length]. change (inject_Z (Z.of_nat 0)) with 0. lra.
  - inversion Hall as [|? ? [[Hi1 Hi2] [Hs1 Hs2]] Hall']; subst.
    specialize (IH (a.1 + intelligence c, a.2 + survival c) Hall').
    cbv zeta in IH. cbn [fst snd] in IH.
    cbn [fold_left]. rewrite length_cons, Nat2Z.inj_succ, <- Z.add_1_r, inject_Z_plus.
    change (inject_Z 1) with 1.
    set (r := fold_left _ cores _) in *.
    set (n := inject_Z (Z.of_nat (length cores))) in *.
    lra.
Qed.

Lemma avgCore_cons (m : Member) (ms : list Member) :
  avgCore (m :: ms)
  = fold_left (fun a c => (a.1 + intelligence c, a.2 + survival c))
              (map mapCoreStats10 (m :: ms)) (0, 0).
Proof. reflexivity. Qed.

Lemma toLowerCase_app (a b : string) :
  toLowerCase (String.append a b) = String.append (toLowerCase a) (toLowerCase b).
Proof. induction a as [|c a IH]; simpl; [reflexivity|]. now rewrite IH. Qed.

Lemma prefix_app (k b : string) : String.prefix k (String.append k b) = true.
Proof.
  induction k as [|c k IH]; simpl; [now destruct b|].
  destruct (Ascii.ascii_dec c c); [exact IH | congruence].
Qed.

Lemma includes_unfold (s sub : string) :
  includes s sub
  = if String.prefix sub s then true
    else match s with
         | EmptyString => false
         | String _ s' => includes s' sub
         end.
Proof. now destruct s. Qed.

Lemma includes_app (a k b : string) :
  includes (String.append a (String.append k b)) k = true.
Proof.
  induction a as [|c a IH].
  - change (String.append "" (String.append k b)) with (String.append k b).
    rewrite includes_unfold. now rewrite prefix_app.
  - change (String.append (String c a) (String.append k b))
      with (String c (String.append a (String.append k b))).
    rewrite includes_unfold, IH.
    now destruct (String.prefix k _).
Qed.




(** X14.  If [Math.pow(x, 1.5)] is monotone for [x >= 1], the difficulty
    modifier never decreases when the difficulty increases, and every
    difficulty up to 1 (zero and negative ones included) has the modifier
    of difficulty 1. *)
Theorem X14_difficultyModifier_monotone
    (squadA squadB : list Member) (enemiesA enemiesB : list Enemy) (d1 d2 : Q)
    (locationA locationB : string) (subTerrainA subTerrainB : option string) :
  (forall x y, 1 <= x -> x <= y -> pow_1_5 x <= pow_1_5 y) ->
  d1 <= d2 ->
  let rA := calculateUniversalCombatDuration squadA enemiesA d1 locationA subTerrainA in
  let rB := calculateUniversalCombatDuration squadB enemiesB d2 locationB subTerrainB in
  difficultyModifier rA <= difficultyModifier rB
  /\ (d2 <= 1 ->
      (difficultyModifier rA <= pow_1_5 1 /\ pow_1_5 1 <= difficultyModifier rA)
      /\ (difficultyModifier rB <= pow_1_5 1 /\ pow_1_5 1 <= difficultyModifier rB)).
Proof.
  intros Hmono Hd rA rB. simpl.
  pose proof (orElse_max d1) as E1. pose proof (orElse_max d2) as E2.
  pose proof (Q.le_max_l 1 (orElse d1 1)) as L1.
  pose proof (Q.le_max_l 1 (orElse d2 1)) as L2.
  split.
  - apply Hmono; [exact L1|]. rewrite E1, E2. now apply Q.max_le_compat_l.
  - intros H2.
    assert (M1 : Qmax 1 (orElse d1 1) == 1)
      by (rewrite E1; apply Q.max_l; lra).
    assert (M2 : Qmax 1 (orElse d2 1) == 1)
      by (rewrite E2; apply Q.max_l; lra).
    split; split.
    + apply Hmono; [exact L1 | rewrite M1; lra].
    + apply Hmono; [lra | rewrite M1; lra].
    + apply Hmono; [exact L2 | rewrite M2; lra].
    + apply Hmono; [lra | rewrite M2; lra].
Qed.

(** X15.  For a difficulty [>= 0] the travel time is at least 21 minutes:
    the product before rounding is at least [30 * 1.3 * 0.9 * 0.6], so the
    lower bound 9 of the clamp is never reached. *)
Theorem X15_travel_at_least_21_minutes
    (squadMembers : list Member) (enemies : list Enemy) (difficulty : Q)
    (location : string) (subTerrain : option string) :
  0 <= difficulty ->
  let r := calculateUniversalCombatDuration squadMembers enemies difficulty
             location subTerrain in
  1053 # 50 <= travelProduct squadMembers difficulty location subTerrain
  /\ 21 <= travelMinutes r.
Proof.
  intros Hd r.
  assert (Hp : 1053 # 50 <= travelProduct squadMembers difficulty location subTerrain).
  { unfold travelProduct.
    pose proof (terrainFactor_ge location) as Ht.
    pose proof (subFactor_ge subTerrain) as Hs.
    pose proof (Q.le_max_l (3 # 5) (reduction squadMembers)) as Hr.
    set (tf := terrainFactor location) in *. set (sf := subFactor subTerrain) in *.
    set (rd := Qmax (3 # 5) (reduction squadMembers)) in *.
    assert (H1 : 39 <= (30 + difficulty * 10) * tf) by nra.
    assert (H2 : 351 # 10 <= (30 + difficulty * 10) * tf * sf) by nra.
    nra. }
  split; [exact Hp|].
  simpl. unfold round. apply clamp_ge_of_ge.
  change 21%Z with (Qfloor (21 # 1)). apply Qfloor_resp_le. lra.
Qed.

(** X16.  When every squad member's intelligence and survival lie between 0
    and 10, the travel reduction factor lies between 0.6 and 1 (a reduction
    of at most 40%), so its floor at 0.6 does not change it. *)
Theorem X16_reduction_at_most_40_percent (squadMembers : list Member) :
  Forall (fun m => (0 <= intelligence (mapCoreStats10 m)
                    /\ intelligence (mapCoreStats10 m) <= 10)
                   /\ (0 <= survival (mapCoreStats10 m)
                       /\ survival (mapCoreStats10 m) <= 10)) squadMembers ->
  3 # 5 <= reduction squadMembers
  /\ reduction squadMembers <= 1
  /\ Qmax (3 # 5) (reduction squadMembers) == reduction squadMembers.
Proof.
  intros Hall.
  assert (Hb : 3 # 5 <= reduction squadMembers /\ reduction squadMembers <= 1).
  { destruct squadMembers as [|m ms].
    - vm_compute. split; discriminate.
    - unfold reduction. rewrite !avgCore_cons.
      assert (Hlen : (1 <= Z.of_nat (length (m :: ms)))%Z) by (rewrite length_cons; lia).
      remember (m :: ms) as l eqn:El. clear El.
      assert (Hc : Forall (fun c => (0 <= intelligence c /\ intelligence c <= 10)
                                    /\ (0 <= survival c /\ survival c <= 10))
                          (map mapCoreStats10 l)).
      { apply Forall_fmap. exact Hall. }
      pose proof (fold_core_bounds (map mapCoreStats10 l) (0, 0) Hc) as Hf.
      cbv zeta in Hf. rewrite length_map in Hf. cbn [fst snd] in Hf.
      set (sums := fold_left _ (map mapCoreStats10 l) (0, 0)) in *.
      assert (Hn : 1 <= inject_Z (Z.of_nat (length l))) by (unfold Qle; simpl; lia).
      set (n := inject_Z (Z.of_nat (length l))) in *.
      rewrite (Q.max_r 1 n) by exact Hn.
      destruct Hf as [[Hi1 Hi2] [Hs1 Hs2]].
      assert (Ha1 : 0 <= sums.1 / n) by (apply Qle_shift_div_l; lra).
      assert (Ha2 : sums.1 / n <= 10) by (apply Qle_shift_div_r; lra).
      assert (Hb1 : 0 <= sums.2 / n) by (apply Qle_shift_div_l; lra).
      assert (Hb2 : sums.2 / n <= 10) by (apply Qle_shift_div_r; lra).
      set (x := sums.1 / n) in *. set (y := sums.2 / n) in *.
      unfold Qdiv. change (/ 10) with (1 # 10). split; lra. }
  split; [tauto|]. split; [tauto|]. apply Q.max_r. tauto.
Qed.

(** X17.  An unarmed member at a combat level between 0 and 10 deals between
    0.2 and 2.7 damage per second, times the member's (non-negative) damage
    multiplier. *)
Theorem X17_unarmed_baseline (member : Member) :
  normalizeWeaponFromItem (equippedWeapon member) = None ->
  0 <= combatLevel (mapCoreStats10 member) ->
  combatLevel (mapCoreStats10 member) <= 10 ->
  0 <= combatDamageMultiplier (mapCoreStats10 member) ->
  (1 # 5) * combatDamageMultiplier (mapCoreStats10 member) <= computeMemberDps member
  /\ computeMemberDps member <= (27 # 10) * combatDamageMultiplier (mapCoreStats10 member).
Proof.
  intros Hw H0 H10 Hm. unfold computeMemberDps. rewrite Hw.
  set (lv := combatLevel (mapCoreStats10 member)) in *.
  set (mu := combatDamageMultiplier (mapCoreStats10 member)) in *.
  split; nra.
Qed.

(** X18.  The terrain keywords are found anywhere in the text and in any
    letter case, and the first one of the table wins: a location that
    contains "junction" has factor 1.6 and a sub-terrain that contains
    "alleys" has factor 1.2, whatever else they contain. *)
Theorem X18_keyword_anywhere_any_case (pre kw post pre' kw' post' : string) :
  toLowerCase kw = "junction" ->
  toLowerCase kw' = "alleys" ->
  terrainFactor (String.append pre (String.append kw post)) = 8 # 5
  /\ subFactor (Some (String.append pre' (String.append kw' post'))) = 6 # 5.
Proof.
  intros Hk Hk'. split.
  - unfold terrainFactor. rewrite !toLowerCase_app, Hk. now rewrite includes_app.
  - unfold subFactor. rewrite !toLowerCase_app, Hk'. now rewrite includes_app.
Qed.

End EngineFacts.

(** ** The concrete instance *)

Lemma pow_1_5_approx_ge_1 x : 1 <= x -> 1 <= pow_1_5_approx x.
Proof.
  intros Hx. unfold pow_1_5_approx.
  assert (Hs : 1 <= sqrtApprox x).
  { unfold sqrtApprox, Qle. simpl.
    unfold Qle in Hx. simpl in Hx.
    assert (H : (1000000000000 <= Qnum x * 1000000000000 / Zpos (Qden x))%Z).
    { apply Z.div_le_lower_bound; lia. }
    apply Z.sqrt_le_mono in H.
    change (Z.sqrt 1000000000000) with 1000000%Z in H. lia. }
  nra.
Qed.

(** One rifleman against one raider of health 40, difficulty 1, in a
    valley: 14.4 against 2.25 damage per second, 1200 health, ratio 6.4,
    fifty seconds of combat and 45 minutes of travel. *)
Example exEstimate_valley :
  let r := exEstimate [exRifleman] [exRaider] 1 "Valley" None in
  squadDps r == 72 # 5 /\ enemyDps r == 9 # 4 /\ totalEnemyHealth r == 1200
  /\ powerRatio r == 32 # 5 /\ travelMinutes r == 45 /\ estimatedDuration r == 2750.
Proof. vm_compute. repeat split; reflexivity. Qed.



Lemma sqrtApprox_nonneg x : 0 <= sqrtApprox x.
Proof.
  unfold sqrtApprox, Qle. simpl.
  pose proof (Z.sqrt_nonneg (Qnum x * 1000000000000 / Z.pos (Qden x))). lia.
Qed.

Lemma sqrtApprox_mono x y : x <= y -> sqrtApprox x <= sqrtApprox y.
Proof.
  intros Hxy. unfold sqrtApprox, Qle. simpl. unfold Qle in Hxy.
  apply Z.mul_le_mono_nonneg_r; [lia|].
  apply Z.sqrt_le_mono.
  apply Z.div_le_lower_bound; [lia|].
  pose proof (Z.mul_div_le (Qnum x * 1000000000000) (Z.pos (Qden x)) ltac:(lia)) as Hq.
  set (q := (Qnum x * 1000000000000 / Z.pos (Qden x))%Z) in *.
  apply (Z.mul_le_mono_pos_l _ _ (Z.pos (Qden x))); [lia|].
  nia.
Qed.

Lemma pow_1_5_approx_mono x y : 1 <= x -> x <= y -> pow_1_5_approx x <= pow_1_5_approx y.
Proof.
  intros Hx Hxy. unfold pow_1_5_approx.
  pose proof (sqrtApprox_nonneg x). pose proof (sqrtApprox_mono x y Hxy).
  nra.
Qed.

Lemma X14_difficultyModifier_monotone_witness :
  (forall x y, 1 <= x -> x <= y -> pow_1_5_approx x <= pow_1_5_approx y)
  /\ 1 <= 4
  /\ difficultyModifier (exEstimate [exRifleman] [exRaider] 1 "Valley" None)
     <= difficultyModifier (exEstimate [exBrawler] [] 4 "Junction" (Some "tunnel")).
Proof.
  assert (H : 1 <= 4) by (unfold Qle; simpl; lia).
  split; [exact pow_1_5_approx_mono|]. split; [exact H|].
  exact (proj1 (@X14_difficultyModifier_monotone ExMember exImports
                  [exRifleman] [exBrawler] [exRaider] [] 1 4 "Valley" "Junction"
                  None (Some "tunnel") pow_1_5_approx_mono H)).
Defined.

Lemma X15_travel_at_least_21_minutes_witness :
  0 <= 0
  /\ 21 <= travelMinutes (exEstimate [exBrawler] [exRaider] 0 "salt flats" (Some "salt")).
Proof.
  assert (H : 0 <= 0) by (unfold Qle; simpl; lia).
  split; [exact H|].
  exact (proj2 (@X15_travel_at_least_21_minutes ExMember exImports
                  [exBrawler] [exRaider] 0 "salt flats" (Some "salt") H)).
Defined.

Lemma exSquad_stats_in_range :
  Forall (fun m => (0 <= intelligence (mapCoreStats10 m)
                    /\ intelligence (mapCoreStats10 m) <= 10)
                   /\ (0 <= survival (mapCoreStats10 m)
                       /\ survival (mapCoreStats10 m) <= 10))
         [exRifleman; exBrawler].
Proof.
  repeat constructor; unfold Qle; simpl; lia.
Defined.

Lemma X16_reduction_at_most_40_percent_witness :
  Forall (fun m => (0 <= intelligence (mapCoreStats10 m)
                    /\ intelligence (mapCoreStats10 m) <= 10)
                   /\ (0 <= survival (mapCoreStats10 m)
                       /\ survival (mapCoreStats10 m) <= 10))
         [exRifleman; exBrawler]
  /\ 3 # 5 <= reduction [exRifleman; exBrawler]
  /\ reduction [exRifleman; exBrawler] <= 1.
Proof.
  split; [exact exSquad_stats_in_range|].
  destruct (@X16_reduction_at_most_40_percent ExMember exImports
              [exRifleman; exBrawler] exSquad_stats_in_range) as (H1 & H2 & _).
  split; [exact H1 | exact H2].
Defined.

Lemma X17_unarmed_baseline_witness :
  normalizeWeaponFromItem (equippedWeapon exBrawler) = None
  /\ 0 <= combatLevel (mapCoreStats10 exBrawler)
  /\ combatLevel (mapCoreStats10 exBrawler) <= 10
  /\ 0 <= combatDamageMultiplier (mapCoreStats10 exBrawler)
  /\ computeMemberDps exBrawler
     <= (27 # 10) * combatDamageMultiplier (mapCoreStats10 exBrawler).
Proof.
  assert (H0 : 0 <= combatLevel (mapCoreStats10 exBrawler)) by (unfold Qle; simpl; lia).
  assert (H1 : combatLevel (mapCoreStats10 exBrawler) <= 10) by (unfold Qle; simpl; lia).
  assert (H2 : 0 <= combatDamageMultiplier (mapCoreStats10 exBrawler))
    by (unfold Qle; simpl; lia).
  split; [reflexivity|]. split; [exact H0|]. split; [exact H1|]. split; [exact H2|].
  exact (proj2 (@X17_unarmed_baseline ExMember exImports exBrawler eq_refl H0 H1 H2)).
Defined.

Lemma X18_keyword_anywhere_any_case_witness :
  toLowerCase "JUNCTION" = "junction"
  /\ toLowerCase "Alleys" = "alleys"
  /\ terrainFactor (String.append "Old Valley " (String.append "JUNCTION" " complex")) = 8 # 5
  /\ subFactor (Some (String.append "back " (String.append "Alleys" " and tunnel"))) = 6 # 5.
Proof.
  split; [reflexivity|]. split; [reflexivity|].
  exact (X18_keyword_anywhere_any_case "Old Valley " "JUNCTION" " complex"
           "back " "Alleys" " and tunnel" eq_refl eq_refl).
Defined.

End FormulaTheory.

(* ===================================================================== *)
(** * Part V: the duration formula on the numbers of the host language *)
(* ===================================================================== *)

Module FormulaNumTheory.

Import FormulaNum.

Local Open Scope Q_scope.

Lemma overflow_pos : 0 < overflow.
Proof. reflexivity. Qed.

Lemma sgn_pos (q : Q) : 0 < q -> sgn q = Gt.
Proof.
  unfold Qlt, sgn. simpl. intros H. apply Z.compare_gt_iff. lia.
Qed.

Lemma sgn_not_neg (q : Q) : 0 <= q -> sgn q <> Lt.
Proof.
  unfold Qle, sgn. simpl. intros H E. rewrite Z.compare_lt_iff in E. lia.
Qed.

Lemma norm_notNegative (q : Q) : 0 <= q -> notNegative (norm q).
Proof.
  intros H. unfold norm.
  destruct (Qle_bool overflow q); [exact I|].
  destruct (Qle_bool q (- overflow)) eqn:E; [|exact H].
  apply Qle_bool_iff in E. pose proof overflow_pos. lra.
Qed.

Lemma scaleInf_notNegative (a : Q) : 0 <= a -> notNegative (scaleInf PInf a).
Proof.
  intros H. unfold scaleInf. pose proof (sgn_not_neg a H).
  destruct (sgn a); [exact I | congruence | exact I].
Qed.

Lemma add_notNegative (x y : Num) :
  notNegative x -> notNegative y -> notNegative (add x y).
Proof.
  destruct x as [a| | |], y as [b| | |]; cbn [add notNegative]; try tauto.
  intros Ha Hb. apply norm_notNegative. lra.
Qed.

Lemma mul_notNegative (x y : Num) :
  notNegative x -> notNegative y -> notNegative (mul x y).
Proof.
  destruct x as [a| | |], y as [b| | |]; cbn [mul notNegative]; try tauto.
  - intros Ha Hb. apply norm_notNegative. now apply Qmult_le_0_compat.
  - intros Ha _. now apply scaleInf_notNegative.
  - intros _ Hb. now apply scaleInf_notNegative.
Qed.

Lemma floored_notNegative (x : Num) : floored x -> notNegative x.
Proof. destruct x; cbn [floored notNegative]; try tauto. lra. Qed.

Lemma div_notNegative (x y : Num) :
  notNegative x -> floored y -> notNegative (div x y).
Proof.
  destruct x as [a| | |], y as [b| | |]; cbn [div notNegative floored]; try tauto.
  - intros Ha Hb. rewrite (sgn_pos b) by lra.
    apply norm_notNegative. apply Qle_shift_div_l; lra.
  - intros _ _. lra.
  - intros _ Hb. now rewrite (sgn_pos b) by lra.
Qed.

Lemma max_floored (x : Num) : floored (max (Fin (1 # 2)) x).
Proof.
  destruct x as [a| | |]; cbn [max floored]; try exact I; [apply Q.le_max_l | lra].
Qed.

Lemma sumOf_notNegative {A : Type} (f : A -> Num) (arr : list A) :
  Forall (fun x => notNegative (f x)) arr -> notNegative (sumOf f arr).
Proof.
  unfold sumOf. assert (H0 : notNegative (Fin 0)) by (cbn; lra).
  revert H0. generalize (Fin 0). induction arr as [|x arr IH]; intros acc Hacc Hall.
  - exact Hacc.
  - inversion Hall; subst. cbn [fold_left]. apply IH; [|assumption].
    now apply add_notNegative.
Qed.

(** [Math.max(1, difficulty || 1)] is [+Infinity] or a finite number that
    is at least [1]. *)
Lemma base_at_least_1 (difficulty : Num) :
  match max (Fin 1) (orElse difficulty (Fin 1)) with
  | Fin q => 1 <= q
  | PInf => True
  | _ => False
  end.
Proof.
  destruct difficulty as [d| | |]; cbn [orElse max]; try exact I.
  - destruct (Qeq_bool d 0); cbn [max]; apply Q.le_max_l.
  - lra.
  - apply Q.le_max_l.
Qed.

(** [clamp(v, 9, 600)] is [NaN] or a finite number from [9] to [600]. *)
Lemma clamp_range (v : Num) :
  match clamp v (Fin 9) (Fin 600) with
  | Fin q => 9 <= q <= 600
  | NaN => True
  | _ => False
  end.
Proof.
  destruct v as [a| | |]; unfold clamp; cbn [min max]; try exact I.
  - split; [apply Q.le_max_l|]. apply Q.max_lub; [lra | apply Q.le_min_l].
  - rewrite Q.max_r by lra. lra.
  - lra.
Qed.

Lemma powerFactor_notNegative (x : Num) : notNegative (powerFactor x).
Proof.
  unfold powerFactor.
  destruct (ltb (Fin 2) x); [cbn; lra|]. destruct (ltb x (Fin (1 # 2))); cbn; lra.
Qed.

Section EngineFacts.

Context {Member : Type} `{!Imports Member}.

Lemma pow15_notNegative (difficulty : Num) :
  (forall q, 1 <= q -> 0 <= pow_1_5 q) ->
  notNegative (pow15 (max (Fin 1) (orElse difficulty (Fin 1)))).
Proof.
  intros Hpow. pose proof (base_at_least_1 difficulty) as Hb.
  destruct (max (Fin 1) (orElse difficulty (Fin 1))) as [q| | |];
    cbn [pow15]; try exact I; try contradiction.
  rewrite (sgn_pos q) by lra. apply norm_notNegative, Hpow, Hb.
Qed.

Lemma norm_finite (q : Q) : 0 <= q -> q < overflow -> norm q = Fin q.
Proof.
  intros H0 H1. unfold norm.
  destruct (Qle_bool overflow q) eqn:E1; [apply Qle_bool_iff in E1; lra|].
  destruct (Qle_bool q (- overflow)) eqn:E2; [apply Qle_bool_iff in E2; lra|].
  reflexivity.
Qed.

Lemma powerFactor_finite (x : Num) :
  exists f, powerFactor x = Fin f /\ 0 <= f <= 5 # 2.
Proof.
  unfold powerFactor.
  destruct (ltb (Fin 2) x); [exists (3 # 5); split; [reflexivity | lra]|].
  destruct (ltb x (Fin (1 # 2))); [exists (5 # 2) | exists (6 # 5)];
    (split; [reflexivity | lra]).
Qed.

(** C6 (as the code has it).  For every squad roster, every roster of
    enemy objects, every number as difficulty and all strings,
    [calculateUniversalCombatDuration] returns, and in its result:
    - [squadDps] and [enemyDps] are each [NaN] or at least [0.5], so
      [totalEnemyHealth / squadDps] never divides by zero;
    - if no enemy has a negative [health] (an absent one counts as [40]),
      [estimatedDuration] is not negative: it is [NaN], [+Infinity] or a
      finite number that is at least [0];
    - [estimatedDuration] is a finite number that is at least [0] when
      [totalEnemyHealth] is finite and not negative, [difficultyModifier]
      is finite and at least [1], neither [squadDps] nor [travelMinutes]
      is [NaN], and
      [5 * totalEnemyHealth * difficultyModifier + 36000] is below the
      overflow threshold. *)
Theorem C6_duration_not_negative
    (squadMembers : list Member) (enemies : list Enemy) (difficulty : Num)
    (location : string) (subTerrain : option string) :
  let r :=
    calculateUniversalCombatDuration squadMembers enemies difficulty location
                                     subTerrain in
  floored (squadDps r)
  /\ floored (enemyDps r)
  /\ ((forall q, 1 <= q -> 0 <= pow_1_5 q) ->
      Forall (fun e => notNegative (nullish (health e) (Fin 40))) enemies ->
      notNegative (estimatedDuration r))
  /\ (forall h m,
        totalEnemyHealth r = Fin h -> 0 <= h ->
        difficultyModifier r = Fin m -> 1 <= m ->
        squadDps r <> NaN -> travelMinutes r <> NaN ->
        5 * h * m + 36000 < overflow ->
        exists q, estimatedDuration r = Fin q /\ 0 <= q).
Proof.
  intros r. subst r. unfold calculateUniversalCombatDuration.
  cbn [squadDps enemyDps estimatedDuration totalEnemyHealth difficultyModifier
       travelMinutes].
  split; [apply max_floored|]. split; [apply max_floored|]. split.
  - intros Hpow Hh. apply add_notNegative.
    + apply mul_notNegative; [|apply powerFactor_notNegative].
      apply mul_notNegative; [|now apply pow15_notNegative].
      apply div_notNegative; [|apply max_floored].
      apply sumOf_notNegative. eapply Forall_impl; [exact Hh|].
      intros e He. cbn beta. apply mul_notNegative; [exact He | cbn; lra].
    + match goal with
      | |- notNegative (mul (clamp ?v _ _) _) =>
          pose proof (clamp_range v) as Hc;
          destruct (clamp v (Fin 9) (Fin 600)) as [t| | |]
      end; try contradiction; cbn [mul]; [|exact I].
      apply norm_notNegative. lra.
  - intros h m EH Hh EM Hm HS HT Hb. rewrite EH, EM.
    assert (Hhm : h <= h * m) by nra.
    assert (Hb0 : exists b,
               div (Fin h) (max (Fin (1 # 2)) (sumOf computeMemberDps squadMembers))
                 = Fin b /\ 0 <= b <= 2 * h).
    { pose proof (max_floored (sumOf computeMemberDps squadMembers)) as HSf.
      destruct (max (Fin (1 # 2)) (sumOf computeMemberDps squadMembers))
        as [d| | |]; cbn [floored] in HSf; try contradiction; try congruence.
      - cbn [div]. rewrite (sgn_pos d) by lra.
        assert (H1 : 0 <= h / d) by (apply Qle_shift_div_l; lra).
        assert (H2 : h / d <= 2 * h) by (apply Qle_shift_div_r; [lra | nra]).
        exists (h / d). split; [apply norm_finite; lra | lra].
      - exists 0. cbn [div]. split; [reflexivity | lra]. }
    destruct Hb0 as (b & -> & Hb1 & Hb2).
    destruct (powerFactor_finite
                (div (max (Fin (1 # 2)) (sumOf computeMemberDps squadMembers))
                     (max (max (Fin (1 # 2)) (sumOf computeEnemyDps enemies))
                          (Fin (1 # 2))))) as (f & -> & Hf1 & Hf2).
    assert (Hbm1 : 0 <= b * m) by (apply Qmult_le_0_compat; lra).
    assert (Hbm2 : b * m <= 2 * h * m) by (apply Qmult_le_compat_r; lra).
    assert (Hf3 : 0 <= b * m * f) by (apply Qmult_le_0_compat; lra).
    assert (Hf4 : b * m * f <= 5 * h * m) by nra.
    cbn [mul]. rewrite (norm_finite (b * m)) by lra.
    cbn [mul]. rewrite (norm_finite (b * m * f)) by lra.
    match goal with
    | |- context [clamp ?v (Fin 9) (Fin 600)] =>
        pose proof (clamp_range v) as Hc;
        destruct (clamp v (Fin 9) (Fin 600)) as [t| | |]
    end; try contradiction; try congruence.
    cbn [mul add]. rewrite (norm_finite (t * 60)) by lra.
    exists (b * m * f + t * 60). split; [apply norm_finite; lra | lra].
Qed.

(** X25.  On the numbers of the host language, [travelMinutes] is [NaN] or
    a finite number from [9] to [600], whatever the inputs; a difficulty
    [NaN] makes both [travelMinutes] and [estimatedDuration] [NaN]. *)
Theorem X25_travelMinutes_range_or_NaN
    (squadMembers : list Member) (enemies : list Enemy) (difficulty : Num)
    (location : string) (subTerrain : option string) :
  let r :=
    calculateUniversalCombatDuration squadMembers enemies difficulty location
                                     subTerrain in
  match travelMinutes r with
  | Fin q => 9 <= q <= 600
  | NaN => True
  | _ => False
  end
  /\ (difficulty = NaN -> travelMinutes r = NaN /\ estimatedDuration r = NaN).
Proof.
  intros r. subst r. unfold calculateUniversalCombatDuration.
  cbn [travelMinutes estimatedDuration]. split; [apply clamp_range|].
  intros ->. cbn [mul add round clamp min max]. split; [reflexivity|].
  match goal with |- add ?x NaN = NaN => now destruct x end.
Qed.

End EngineFacts.

(** C6, counterexample.  An enemy whose [health] is [-1000] gives a
    negative [estimatedDuration]; with no enemies and difficulty [1e300]
    the difficulty modifier overflows and [0 * Infinity] gives [NaN]; the
    difficulty [NaN] gives [NaN] as well. *)
Lemma C6_counterexample :
  isNegative
    (estimatedDuration (exEstimate [Formula.exBrawler] [exWraith] (Fin 1) "valley" None))
    = true
  /\ estimatedDuration (exEstimate [] [] exHuge "valley" None) = NaN
  /\ estimatedDuration (exEstimate [] [] NaN "valley" None) = NaN.
Proof. vm_compute. repeat split; reflexivity. Qed.

Lemma C6_duration_not_negative_witness :
  let r := exEstimate [Formula.exBrawler] [exRaider] (Fin 1) "valley" None in
  (forall q, 1 <= q -> 0 <= pow_1_5 q)
  /\ Forall (fun e => notNegative (nullish (health e) (Fin 40))) [exRaider]
  /\ floored (squadDps r)
  /\ floored (enemyDps r)
  /\ notNegative (estimatedDuration r)
  /\ exists q, estimatedDuration r = Fin q /\ 0 <= q.
Proof.
  intros r.
  assert (Hpow : forall q, 1 <= q -> 0 <= pow_1_5 q).
  { intros q Hq. pose proof (FormulaTheory.pow_1_5_approx_ge_1 q Hq) as H.
    change (pow_1_5 q) with (Formula.pow_1_5_approx q). lra. }
  assert (Hh : Forall (fun e => notNegative (nullish (health e) (Fin 40))) [exRaider]).
  { repeat constructor. cbn. lra. }
  destruct (C6_duration_not_negative (Member:=Formula.ExMember)
              [Formula.exBrawler] [exRaider] (Fin 1) "valley" None)
    as (H1 & H2 & H3 & H4).
  split; [exact Hpow|]. split; [exact Hh|]. split; [exact H1|]. split; [exact H2|].
  split; [exact (H3 Hpow Hh)|].
  eapply H4.
  - vm_compute. reflexivity.
  - apply Qle_bool_iff. vm_compute. reflexivity.
  - vm_compute. reflexivity.
  - apply Qle_bool_iff. vm_compute. reflexivity.
  - vm_compute. discriminate.
  - vm_compute. discriminate.
  - vm_compute. reflexivity.
Defined.

Lemma X25_travelMinutes_range_or_NaN_witness :
  travelMinutes (exEstimate [Formula.exBrawler] [exRaider] NaN "valley" None) = NaN
  /\ estimatedDuration (exEstimate [Formula.exBrawler] [exRaider] NaN "valley" None) = NaN.
Proof.
  destruct (X25_travelMinutes_range_or_NaN (Member:=Formula.ExMember)
              [Formula.exBrawler] [exRaider] NaN "valley" None) as (_ & H).
  exact (H eq_refl).
Defined.

End FormulaNumTheory.

(* ===================================================================== *)
(** * Part VI: properties of perk selection                               *)
(* ===================================================================== *)

Module PerkTreeTheory.

Import PerkTree.

Local Open Scope Q_scope.

(** [canSelect] in logical form. *)
Lemma canSelect_spec (member : Member) (perk : Perk) :
  canSelect member perk = true
  <-> ((perk_id perk ∉ owned member)
       /\ 0 < points member
       /\ levelReq perk <= memberLevel member
       /\ Forall (fun p => p ∈ owned member) (prior perk)).
Proof.
  unfold canSelect.
  destruct (bool_decide (perk_id perk ∈ owned member)) eqn:Eo; simpl.
  { apply bool_decide_eq_true_1 in Eo. split; [discriminate | tauto]. }
  apply bool_decide_eq_false_1 in Eo.
  destruct (Qle_bool (points member) 0) eqn:Ep.
  { apply Qle_bool_iff in Ep. split; [discriminate|].
    intros (_ & Hp & _). exfalso. apply (Qlt_not_le _ _ Hp Ep). }
  assert (Hp : 0 < points member).
  { apply Qnot_le_lt. intros H. apply Qle_bool_iff in H. congruence. }
  destruct (Formula.Qltb (memberLevel member) (levelReq perk)) eqn:El.
  { apply FormulaTheory.Qltb_true in El. split; [discriminate|].
    intros (_ & _ & Hl & _). exfalso. apply (Qlt_not_le _ _ El Hl). }
  apply FormulaTheory.Qltb_false in El.
  rewrite forallb_forall, Forall_forall. split.
  - intros H. repeat split; try assumption.
    intros p Hin. apply (bool_decide_eq_true_1 _). apply H. now apply list_elem_of_In.
  - intros (_ & _ & _ & H) p Hin. apply bool_decide_eq_true_2. apply H.
    now apply list_elem_of_In.
Qed.

(** X19.  A perk that names itself among its prerequisites can never be
    selected, by any member. *)
Theorem X19_self_prerequisite_never_selectable (member : Member) (perk : Perk) :
  perk_id perk ∈ prior perk ->
  canSelect member perk = false.
Proof.
  intros Hin. destruct (canSelect member perk) eqn:E; [|reflexivity].
  apply canSelect_spec in E as (Hno & _ & _ & Hall).
  rewrite Forall_forall in Hall. exfalso. apply Hno, Hall, Hin.
Qed.

(** X20.  Progress never locks a perk: if a member can select a perk, a
    member who owns at least the same perks, is at least as high in level,
    still has a perk point and does not own the perk yet can select it
    too. *)
Theorem X20_selectable_stays_selectable (member member' : Member) (perk : Perk) :
  canSelect member perk = true ->
  owned member ⊆ owned member' ->
  memberLevel member <= memberLevel member' ->
  0 < points member' ->
  (perk_id perk ∉ owned member') ->
  canSelect member' perk = true.
Proof.
  intros Hsel Hsub Hlev Hpts Hno.
  apply canSelect_spec in Hsel as (_ & _ & Hl & Hall).
  apply canSelect_spec. split; [assumption|]. split; [assumption|].
  split; [lra|].
  eapply Forall_impl; [exact Hall|]. intros p Hp. now apply Hsub.
Qed.

Example exRecruit_choices :
  canSelect exRecruit exSniper = true
  /\ canSelect exRecruit (mkPerk "aim" None) = false
  /\ canSelect exRecruit (mkPerk "elite" (Some (mkRequires (Some 4) None))) = false
  /\ canSelect (mkMember (Some ["aim"]) None (Some 3)) exSniper = false.
Proof. repeat split; vm_compute; reflexivity. Qed.

Lemma X19_self_prerequisite_never_selectable_witness :
  perk_id exLoop ∈ prior exLoop /\ canSelect exVeteran exLoop = false.
Proof.
  assert (H : perk_id exLoop ∈ prior exLoop)
    by (apply (bool_decide_unpack _); vm_compute; exact I).
  split; [exact H|].
  exact (X19_self_prerequisite_never_selectable exVeteran exLoop H).
Defined.

Lemma X20_selectable_stays_selectable_witness :
  canSelect exRecruit exSniper = true
  /\ owned exRecruit ⊆ owned exVeteran
  /\ memberLevel exRecruit <= memberLevel exVeteran
  /\ 0 < points exVeteran
  /\ (perk_id exSniper ∉ owned exVeteran)
  /\ canSelect exVeteran exSniper = true.
Proof.
  assert (H1 : canSelect exRecruit exSniper = true) by reflexivity.
  assert (H2 : owned exRecruit ⊆ owned exVeteran)
    by (apply (bool_decide_unpack _); vm_compute; exact I).
  assert (H3 : memberLevel exRecruit <= memberLevel exVeteran)
    by (unfold Qle; simpl; lia).
  assert (H4 : 0 < points exVeteran) by reflexivity.
  assert (H5 : perk_id exSniper ∉ owned exVeteran)
    by (apply (bool_decide_unpack _); vm_compute; exact I).
  repeat (split; [assumption|]).
  exact (X20_selectable_stays_selectable exRecruit exVeteran exSniper H1 H2 H3 H4 H5).
Defined.

End PerkTreeTheory.

(* ===================================================================== *)
(** * Part VII: properties of the synchronizer, step by step              *)
(* ===================================================================== *)

Module SyncFineTheory.

Import Sync.

Section FineFacts.

Context {Mission : Type}.

Variable throws : nat -> bool.

Local Abbreviation State := (@SyncFine.State Mission).
Local Abbreviation Event := (@SyncFine.Event Mission).
Local Abbreviation World := (@World Mission).
Local Abbreviation step := (@SyncFine.step Mission throws).
Local Abbreviation run := (@SyncFine.run Mission throws).
Local Abbreviation reachable := (@SyncFine.reachable Mission throws).
Local Abbreviation onUpdate := (@SyncFine.onUpdate Mission throws).
Local Abbreviation syncOf := (@SyncFine.syncOf Mission).
Local Abbreviation Inv := (@SyncFine.Inv Mission).

Implicit Types (st : State) (w : World) (e : Event) (t : list Event) (mission : Mission).

Lemma existsb_calm (l : list nat) :
  Forall (fun cb => throws cb = false) l -> existsb throws l = false.
Proof.
  induction 1 as [|cb l Hcb _ IH]; simpl; [reflexivity|]. now rewrite Hcb, IH.
Qed.

Lemma invoked_calm (l : list nat) :
  Forall (fun cb => throws cb = false) l -> SyncFine.invoked throws l = l.
Proof.
  induction 1 as [|cb l Hcb _ IH]; simpl; [reflexivity|]. now rewrite Hcb, IH.
Qed.

Lemma fine_Inv_init : Inv SyncFine.initState.
Proof.
  split; unfold SyncFine.syncOf; simpl.
  - intros m cd H. rewrite lookup_empty in H. discriminate.
  - intros m [x H]. rewrite lookup_empty in H. discriminate.
  - set_solver.
  - set_solver.
Qed.

Lemma fine_Inv_onUpdate m state now st :
  Inv st -> Inv (SyncFine.mkFine (onUpdate m state now (SyncFine.world st)) (SyncFine.pending st)).
Proof.
  intros [Hs Hp Hl Hc]. unfold SyncFine.syncOf in *. unfold SyncFine.onUpdate.
  destruct (activeCombats (sync (SyncFine.world st)) !! m) as [cd|] eqn:Hcd;
    [|now split].
  destruct (victory state) as [v|]; [|now split].
  destruct (Hs _ _ Hcd) as [Hlock Hpend].
  destruct (existsb throws _); split; unfold SyncFine.syncOf; simpl.
  - intros m' cd' H. apply lookup_insert_Some in H as [[<- _]|[_ H]]; eauto.
  - intros m' Hm'. destruct (Hp _ Hm') as [H1 H2]. split; [assumption|].
    rewrite lookup_insert_ne; [assumption|]. intros <-.
    rewrite Hpend in Hm'. destruct Hm'; discriminate.
  - exact Hl.
  - intros m' Hm'. destruct (decide (m = m')) as [<-|Hne].
    + rewrite lookup_insert_eq. eauto.
    + rewrite lookup_insert_ne by done. auto.
  - intros m' cd' H. rewrite delete_insert_eq in H.
    apply lookup_delete_Some in H as [Hne H]. destruct (Hs _ _ H). split; [set_solver|assumption].
  - intros m' Hm'. destruct (Hp _ Hm') as [H1 H2].
    assert (m <> m') by (intros <-; rewrite Hpend in Hm'; destruct Hm'; discriminate).
    split; [set_solver|]. rewrite delete_insert_eq. now rewrite lookup_delete_ne.
  - intros m' Hm'. specialize (Hl m'). set_solver.
  - intros m' Hm'. destruct (decide (m = m')) as [<-|Hne].
    + rewrite lookup_insert_eq. eauto.
    + rewrite lookup_insert_ne by done. apply Hc. set_solver.
Qed.

Lemma fine_Inv_forceCombatEnd m cs now st :
  Inv st ->
  Inv (SyncFine.mkFine (SyncFine.forceCombatEnd m cs now (SyncFine.world st))
                       (SyncFine.pending st)).
Proof.
  intros [Hs Hp Hl Hc]. unfold SyncFine.syncOf in *. unfold SyncFine.forceCombatEnd.
  destruct (activeCombats (sync (SyncFine.world st)) !! m) as [cd|] eqn:Hcd;
    [|now split].
  destruct (isComplete cd); [now split|].
  destruct (Hs _ _ Hcd) as [Hlock Hpend].
  split; unfold SyncFine.syncOf; simpl.
  - intros m' cd' H. rewrite delete_insert_eq in H.
    apply lookup_delete_Some in H as [Hne H]. destruct (Hs _ _ H). split; [set_solver|assumption].
  - intros m' Hm'. destruct (Hp _ Hm') as [H1 H2].
    assert (m <> m') by (intros <-; rewrite Hpend in Hm'; destruct Hm'; discriminate).
    split; [set_solver|]. rewrite delete_insert_eq. now rewrite lookup_delete_ne.
  - intros m' Hm'. specialize (Hl m'). set_solver.
  - intros m' Hm'. destruct (decide (m = m')) as [<-|Hne].
    + rewrite lookup_insert_eq. eauto.
    + rewrite lookup_insert_ne by done. apply Hc. set_solver.
Qed.

(** In a reachable state the guards pass only for a mission with no
    session and no activation. *)
Lemma guards_pass_fresh m st :
  Inv st -> startGuardsPass (syncOf st) m = true ->
  (m ∉ completedCombats (syncOf st)) /\ (m ∉ combatLocks (syncOf st))
  /\ activeCombats (syncOf st) !! m = None /\ SyncFine.pending st !! m = None.
Proof.
  intros [Hs Hp Hl Hc] Hg. unfold startGuardsPass in Hg.
  destruct (decide (m ∈ completedCombats (syncOf st))); [discriminate|].
  destruct (decide (m ∈ combatLocks (syncOf st))); [discriminate|].
  split; [assumption|]. split; [assumption|]. split.
  - destruct (activeCombats (syncOf st) !! m) as [cd|] eqn:E; [|reflexivity].
    exfalso. destruct (Hs _ _ E). contradiction.
  - destruct (SyncFine.pending st !! m) as [x|] eqn:E; [|reflexivity].
    exfalso. destruct (Hp m (mk_is_Some _ _ E)). contradiction.
Qed.

Lemma Inv_enterStart m mission ai st : Inv st -> Inv (SyncFine.enterStart m mission ai st).
Proof.
  intros HI. unfold SyncFine.enterStart.
  destruct (startGuardsPass (sync (SyncFine.world st)) m) eqn:Hg; [|assumption].
  destruct (guards_pass_fresh m st HI Hg) as (Hnc & Hnl & Hna & Hnp).
  destruct HI as [Hs Hp Hl Hc]. unfold SyncFine.syncOf in *.
  split; unfold SyncFine.syncOf; simpl.
  - intros m' cd H. destruct (Hs _ _ H) as [H1 H2]. split; [set_solver|].
    rewrite lookup_insert_ne; [assumption|]. intros <-. congruence.
  - intros m' Hm'. destruct (decide (m = m')) as [<-|Hne].
    + split; [set_solver|assumption].
    + rewrite lookup_insert_ne in Hm' by done. destruct (Hp _ Hm'). split; [set_solver|assumption].
  - intros m' Hm'. apply elem_of_union in Hm' as [Hm'|Hm']; [|now apply Hl].
    apply elem_of_singleton in Hm'. now subst.
  - exact Hc.
Qed.

Lemma Inv_returnStart m now st : Inv st -> Inv (SyncFine.returnStart m now st).
Proof.
  intros HI. unfold SyncFine.returnStart.
  destruct (SyncFine.pending st !! m) as [[ai mission]|] eqn:Hpm; [|assumption].
  destruct HI as [Hs Hp Hl Hc]. unfold SyncFine.syncOf in *.
  destruct (Hp m (mk_is_Some _ _ Hpm)) as [Hlock Hnone].
  split; unfold SyncFine.syncOf; simpl.
  - intros m' cd H. apply lookup_insert_Some in H as [[<- _]|[Hne H]].
    + split; [assumption|apply lookup_delete_eq].
    + destruct (Hs _ _ H). split; [assumption|]. now rewrite lookup_delete_ne.
  - intros m' Hm'. apply lookup_delete_is_Some in Hm' as [Hne Hm'].
    destruct (Hp _ Hm'). split; [assumption|]. now rewrite lookup_insert_ne.
  - exact Hl.
  - exact Hc.
Qed.

Lemma Inv_throwStart m st : Inv st -> Inv (SyncFine.throwStart m st).
Proof.
  intros [Hs Hp Hl Hc]. unfold SyncFine.syncOf in *.
  split; unfold SyncFine.syncOf; simpl.
  - intros m' cd H. destruct (Hs _ _ H). split; [assumption|].
    destruct (decide (m = m')) as [<-|Hne];
      [apply lookup_delete_eq | now rewrite lookup_delete_ne].
  - intros m' Hm'. apply lookup_delete_is_Some in Hm' as [_ Hm']. now apply Hp.
  - exact Hl.
  - exact Hc.
Qed.

Lemma fine_Inv_step st e : Inv st -> Inv (step st e).
Proof.
  intros HI. destruct e; simpl.
  - now apply Inv_enterStart.
  - now apply Inv_returnStart.
  - now apply Inv_throwStart.
  - now apply fine_Inv_onUpdate.
  - destruct HI as [Hs Hp Hl Hc]. now split.
  - now apply fine_Inv_forceCombatEnd.
Qed.

Lemma fine_Inv_run st t : Inv st -> Inv (run st t).
Proof.
  revert st. induction t as [|e t IH]; intros st HI; simpl; [exact HI|].
  apply IH, fine_Inv_step, HI.
Qed.

Lemma fine_reachable_Inv st : reachable st -> Inv st.
Proof. intros [t ->]. apply fine_Inv_run, fine_Inv_init. Qed.

Lemma fine_run_app st t t' : run st (t ++ t') = run (run st t) t'.
Proof. unfold SyncFine.run. apply foldl_app. Qed.

Lemma fine_reachable_run st t : reachable st -> reachable (run st t).
Proof. intros [t0 ->]. exists (t0 ++ t). now rewrite fine_run_app. Qed.

Lemma fine_started_step m st e :
  m ∈ combatLocks (syncOf st) \/ m ∈ completedCombats (syncOf st) ->
  m ∈ combatLocks (syncOf (step st e)) \/ m ∈ completedCombats (syncOf (step st e)).
Proof.
  intros H. unfold SyncFine.syncOf in *.
  destruct e as [m' mi ai|m' now|m'|m' state now|m' cb|m' cs now]; simpl.
  - unfold SyncFine.enterStart.
    destruct (startGuardsPass _ m'); [simpl; set_solver|assumption].
  - unfold SyncFine.returnStart.
    destruct (SyncFine.pending st !! m') as [[? ?]|]; assumption.
  - assumption.
  - unfold SyncFine.onUpdate.
    destruct (activeCombats _ !! m'); [|assumption].
    destruct (victory state); [|assumption].
    destruct (existsb throws _); simpl; [assumption|].
    destruct (decide (m = m')); set_solver.
  - assumption.
  - unfold SyncFine.forceCombatEnd.
    destruct (activeCombats _ !! m') as [cd|]; [|assumption].
    destruct (isComplete cd); [assumption|]. simpl.
    destruct (decide (m = m')); set_solver.
Qed.

Lemma fine_started_run m st t :
  m ∈ combatLocks (syncOf st) \/ m ∈ completedCombats (syncOf st) ->
  m ∈ combatLocks (syncOf (run st t)) \/ m ∈ completedCombats (syncOf (run st t)).
Proof.
  revert st. induction t as [|e t IH]; intros st H; simpl; [assumption|].
  now apply IH, fine_started_step.
Qed.

(** [calm st]: every stored session is incomplete. *)
Lemma calm_step st e :
  (forall cb, throws cb = false) ->
  (forall m cd, activeCombats (syncOf st) !! m = Some cd -> isComplete cd = false) ->
  forall m cd, activeCombats (syncOf (step st e)) !! m = Some cd -> isComplete cd = false.
Proof.
  intros Hcalm H m cd. unfold SyncFine.syncOf in *.
  destruct e as [m' mi ai|m' now|m'|m' state now|m' cb|m' cs now]; simpl.
  - unfold SyncFine.enterStart.
    destruct (startGuardsPass _ m'); simpl; apply H.
  - unfold SyncFine.returnStart.
    destruct (SyncFine.pending st !! m') as [[? ?]|]; simpl; [|apply H].
    intros Hl. apply lookup_insert_Some in Hl as [[_ <-]|[_ Hl]]; [reflexivity|eauto].
  - apply H.
  - unfold SyncFine.onUpdate.
    destruct (activeCombats _ !! m') as [cd'|]; [|apply H].
    destruct (victory state); [|apply H].
    rewrite existsb_calm by (apply Forall_forall; intros; apply Hcalm). simpl.
    rewrite delete_insert_eq. intros Hl. apply lookup_delete_Some in Hl as [_ Hl]. eauto.
  - apply H.
  - unfold SyncFine.forceCombatEnd.
    destruct (activeCombats _ !! m') as [cd'|]; [|apply H].
    destruct (isComplete cd'); [apply H|]. simpl.
    rewrite delete_insert_eq. intros Hl. apply lookup_delete_Some in Hl as [_ Hl]. eauto.
Qed.

Lemma calm_run st t :
  (forall cb, throws cb = false) ->
  (forall m cd, activeCombats (syncOf st) !! m = Some cd -> isComplete cd = false) ->
  forall m cd, activeCombats (syncOf (run st t)) !! m = Some cd -> isComplete cd = false.
Proof.
  intros Hcalm. revert st. induction t as [|e t IH]; intros st H; simpl; [exact H|].
  apply IH. now apply calm_step.
Qed.

Lemma registrations_world m (cbs : list nat) st :
  SyncFine.world (foldl (fun acc cb => step acc (SyncFine.EvRegister m cb)) st cbs)
  = foldl (fun acc cb => onCombatComplete m cb acc) (SyncFine.world st) cbs.
Proof.
  revert st. induction cbs as [|cb cbs IH]; intros st; simpl; [reflexivity|].
  now rewrite IH.
Qed.

(** ** The claims settled on the step-by-step synchronizer *)

(** C1 (as the code has it).  If the session of [missionId] is stored when
    the terminal update (victory [v]) is handled, and none of the listeners
    registered for the mission throws, then the handler calls every one of
    them exactly once, in registration order (the listeners [cbs]
    registered last come last), each with the same pair
    [(v, actualDuration)], and afterwards the mission has no listener
    list. *)
Theorem C1_listeners_called_once_in_order
    (st : State) (missionId : string) (combatData : CombatData)
    (cbs : list nat) (state : RealCombatState) (v : bool) (now : Z) :
  activeCombats (syncOf st) !! missionId = Some combatData ->
  victory state = Some v ->
  Forall (fun cb => throws cb = false) (callbacksOf (syncOf st) missionId ++ cbs) ->
  let st1 := foldl (fun acc cb => step acc (SyncFine.EvRegister missionId cb)) st cbs in
  let st2 := step st1 (SyncFine.EvUpdate missionId state now) in
  let d := secondsBetween now (startTime state) in
  effects (SyncFine.world st2) =
    effects (SyncFine.world st)
      ++ map (fun cb => EffCallback missionId cb v d)
             (callbacksOf (syncOf st) missionId ++ cbs)
  /\ missionCompletionCallbacks (syncOf st2) !! missionId = None
  /\ missionId ∈ completedCombats (syncOf st2)
  /\ activeCombats (syncOf st2) !! missionId = None.
Proof.
  intros Hcd Hv Hcalm st1 st2 d. unfold SyncFine.syncOf in *.
  pose proof (registrations_world missionId cbs st) as Hw. fold st1 in Hw.
  destruct (SyncTheory.registrations_callbacks (Mission:=Mission) missionId cbs
              (SyncFine.world st)) as (Hcb & Hact & Heff).
  rewrite <- Hw in Hcb, Hact, Heff.
  unfold st2. simpl. unfold SyncFine.onUpdate.
  rewrite Hact, Hcd, Hv, Hcb, (existsb_calm _ Hcalm), (invoked_calm _ Hcalm), Heff.
  simpl. fold d. split; [reflexivity|]. split; [apply lookup_delete_eq|].
  split; [set_solver|]. rewrite delete_insert_eq. apply lookup_delete_eq.
Qed.

(** C4.  On a live session with at least one registered listener,
    [forceCombatEnd] does not do what the handler does for a defeat reported
    at the same moment with the same combatants: the handler calls the
    listeners (at least the first one) with [victory = false] before it
    deletes their list, [forceCombatEnd] deletes the list and calls nobody.
    And when the clock has not moved since the fight started, the handler
    archives a duration of [0] seconds and [forceCombatEnd] the clock value
    itself, in seconds. *)
Theorem C4_forced_end_skips_listeners
    (st : State) (missionId : string) (combatData : CombatData)
    (cb : nat) (cbs : list nat) (cs : RealCombatState) (now : Z) :
  activeCombats (syncOf st) !! missionId = Some combatData ->
  isComplete combatData = false ->
  callbacksOf (syncOf st) missionId = cb :: cbs ->
  let natural := onUpdate missionId (defeatOf cs) now (SyncFine.world st) in
  let forced := SyncFine.forceCombatEnd missionId (Some cs) now (SyncFine.world st) in
  effects natural
    = effects (SyncFine.world st)
        ++ map (fun c => EffCallback missionId c false (secondsBetween now (startTime cs)))
               (SyncFine.invoked throws (cb :: cbs))
  /\ effects forced = effects (SyncFine.world st)
  /\ effects natural <> effects forced
  /\ missionCompletionCallbacks (sync forced) !! missionId = None
  /\ missionId ∈ completedCombats (sync forced)
  /\ (now = startTime cs ->
      fr_actualDuration <$> (finalResults (sync natural) !! missionId) = Some (0 # 1000)%Q
      /\ fr_actualDuration <$> (finalResults (sync forced) !! missionId)
           = Some (now # 1000)%Q).
Proof.
  intros Hcd Hlive Hcbs natural forced. unfold SyncFine.syncOf in *.
  assert (En : effects natural
    = effects (SyncFine.world st)
        ++ map (fun c => EffCallback missionId c false (secondsBetween now (startTime cs)))
               (SyncFine.invoked throws (cb :: cbs))).
  { unfold natural, SyncFine.onUpdate. rewrite Hcd, Hcbs. cbn [victory defeatOf startTime].
    destruct (existsb throws (cb :: cbs)); reflexivity. }
  assert (Ef : effects forced = effects (SyncFine.world st)).
  { unfold forced, SyncFine.forceCombatEnd. now rewrite Hcd, Hlive. }
  split; [exact En|]. split; [exact Ef|]. split.
  { rewrite En, Ef. intros E. apply (f_equal length) in E.
    rewrite length_app in E. cbn in E. lia. }
  split.
  { unfold forced, SyncFine.forceCombatEnd. rewrite Hcd, Hlive. cbn.
    apply lookup_delete_eq. }
  split.
  { unfold forced, SyncFine.forceCombatEnd. rewrite Hcd, Hlive. cbn. set_solver. }
  intros ->. split.
  - unfold natural, SyncFine.onUpdate. rewrite Hcd, Hcbs. cbn [victory defeatOf startTime].
    destruct (existsb throws (cb :: cbs)); cbn [sync finalResults];
      rewrite lookup_insert_eq; cbn; unfold secondsBetween; now rewrite Z.sub_diag.
  - unfold forced, SyncFine.forceCombatEnd. rewrite Hcd, Hlive. cbn [sync finalResults].
    rewrite lookup_insert_eq. cbn. now rewrite Z.sub_diag.
Qed.

(** C5 (as the code has it).  When a call of [startSynchronizedCombat]
    passes the guards in a reachable state, the mission id is put into
    [combatLocks] before [startCombat] is called, and it is still there when
    the call returns with the session stored.  From the insertion on, at
    every later point (while the collaborator is inside [startCombat],
    after the return, after a listener has thrown) the id is in
    [combatLocks] or in [completedCombats], never in both; as long as it is
    in [combatLocks], [isCombatActive] is true and every further
    [startSynchronizedCombat] for it returns at a guard; once it is
    completed it has neither lock nor session. *)
Theorem C5_lock_held_until_completion
    (st : State) (missionId : string) (mission : Mission) (ai : nat) :
  reachable st ->
  startGuardsPass (syncOf st) missionId = true ->
  let st1 := step st (SyncFine.EvEnterStart missionId mission ai) in
  missionId ∈ combatLocks (syncOf st1)
  /\ activeCombats (syncOf st1) !! missionId = None
  /\ (forall now,
        let st2 := step st1 (SyncFine.EvReturnStart missionId now) in
        activeCombats (syncOf st2) !! missionId
          = Some (mkCombatData ai mission false 0%Q now)
        /\ missionId ∈ combatLocks (syncOf st2))
  /\ forall t,
       let st' := run st1 t in
       (missionId ∈ combatLocks (syncOf st') \/ missionId ∈ completedCombats (syncOf st'))
       /\ (missionId ∈ combatLocks (syncOf st') ->
           (missionId ∉ completedCombats (syncOf st'))
           /\ isCombatActive (syncOf st') missionId = true
           /\ forall mission' ai',
                step st' (SyncFine.EvEnterStart missionId mission' ai') = st')
       /\ (missionId ∈ completedCombats (syncOf st') ->
           (missionId ∉ combatLocks (syncOf st'))
           /\ activeCombats (syncOf st') !! missionId = None).
Proof.
  intros Hr Hg st1. pose proof (fine_reachable_Inv _ Hr) as HI.
  destruct (guards_pass_fresh missionId st HI Hg) as (Hnc & Hnl & Hna & Hnp).
  assert (E1 : st1 = SyncFine.mkFine
      (mkWorld
         (mkSync (activeCombats (syncOf st)) (completedCombats (syncOf st))
                 (finalResults (syncOf st)) ({[missionId]} ∪ combatLocks (syncOf st))
                 (missionCompletionCallbacks (syncOf st)))
         (effects (SyncFine.world st) ++ [EffStartCombat ai missionId]))
      (<[missionId := (ai, mission)]> (SyncFine.pending st))).
  { unfold st1. simpl. unfold SyncFine.enterStart.
    unfold SyncFine.syncOf in Hg. now rewrite Hg. }
  assert (Hl1 : missionId ∈ combatLocks (syncOf st1))
    by (rewrite E1; unfold SyncFine.syncOf; simpl; set_solver).
  split; [exact Hl1|]. split; [now rewrite E1|]. split.
  { intros now st2. unfold st2. rewrite E1. simpl. unfold SyncFine.returnStart. simpl.
    rewrite lookup_insert_eq. unfold SyncFine.syncOf. simpl.
    split; [apply lookup_insert_eq | set_solver]. }
  intros t st'.
  assert (HI' : Inv st').
  { apply fine_Inv_run. unfold st1. now apply fine_Inv_step. }
  split; [apply fine_started_run; now left|]. split.
  - intros Hl. split; [now apply (SyncFine.inv_locked _ HI')|]. split.
    + unfold isCombatActive. rewrite (bool_decide_eq_true_2 _ Hl). apply orb_true_r.
    + intros mission' ai'. simpl. unfold SyncFine.enterStart, startGuardsPass.
      unfold SyncFine.syncOf in Hl.
      destruct (decide (missionId ∈ completedCombats _)); [reflexivity|].
      now rewrite decide_True by exact Hl.
  - intros Hc.
    assert (Hnl' : missionId ∉ combatLocks (syncOf st'))
      by (intros Hl; now apply (SyncFine.inv_locked _ HI' _ Hl)).
    split; [exact Hnl'|].
    destruct (activeCombats (syncOf st') !! missionId) as [cd|] eqn:E; [|reflexivity].
    exfalso. now destruct (SyncFine.inv_session _ HI' _ _ E).
Qed.

(** C10 (as the code has it).  If no completion listener throws, then in
    every reachable state, also while a collaborator is inside
    [startCombat], every stored session has its completion flag false, and
    [getActualCombatDuration] returns [null] for every mission id. *)
Theorem C10_registered_sessions_incomplete (st : State) :
  (forall cb, throws cb = false) ->
  reachable st ->
  (forall m cd, activeCombats (syncOf st) !! m = Some cd -> isComplete cd = false)
  /\ (forall m, getActualCombatDuration (syncOf st) m = None).
Proof.
  intros Hcalm [t ->].
  assert (H : forall m cd, activeCombats (syncOf (run SyncFine.initState t)) !! m = Some cd ->
                           isComplete cd = false).
  { apply calm_run; [exact Hcalm|]. intros m cd Hl.
    unfold SyncFine.syncOf in Hl. simpl in Hl. rewrite lookup_empty in Hl. discriminate. }
  split; [exact H|]. intros m. unfold getActualCombatDuration.
  destruct (activeCombats _ !! m) as [cd|] eqn:E; [|reflexivity].
  now rewrite (H m cd E).
Qed.

(** ** Further facts about the step-by-step synchronizer *)

Lemma stuck_step m st e :
  m ∈ combatLocks (syncOf st) /\ activeCombats (syncOf st) !! m = None
    /\ SyncFine.pending st !! m = None ->
  m ∈ combatLocks (syncOf (step st e)) /\ activeCombats (syncOf (step st e)) !! m = None
    /\ SyncFine.pending (step st e) !! m = None.
Proof.
  intros (Hl & Ha & Hp). unfold SyncFine.syncOf in *.
  destruct e as [m' mi ai|m' now|m'|m' state now|m' cb|m' cs now]; simpl.
  - unfold SyncFine.enterStart.
    destruct (startGuardsPass _ m') eqn:G; [|tauto]. simpl.
    assert (m' <> m).
    { intros ->. unfold startGuardsPass in G.
      destruct (decide (m ∈ completedCombats _)); [discriminate|].
      rewrite decide_True in G by exact Hl. discriminate. }
    split; [set_solver|]. split; [exact Ha|]. now rewrite lookup_insert_ne.
  - unfold SyncFine.returnStart.
    destruct (SyncFine.pending st !! m') as [[a mi]|] eqn:P; [|tauto]. simpl.
    assert (m' <> m) by congruence.
    split; [exact Hl|]. split; [now rewrite lookup_insert_ne | now rewrite lookup_delete_ne].
  - split; [exact Hl|]. split; [exact Ha|].
    destruct (decide (m' = m)) as [->|]; [apply lookup_delete_eq | now rewrite lookup_delete_ne].
  - unfold SyncFine.onUpdate.
    destruct (activeCombats _ !! m') eqn:A; [|tauto].
    assert (m' <> m) by congruence.
    destruct (victory state); [|tauto].
    destruct (existsb throws _); simpl.
    + split; [exact Hl|]. split; [now rewrite lookup_insert_ne | exact Hp].
    + split; [set_solver|]. split; [|exact Hp].
      now rewrite lookup_delete_ne, lookup_insert_ne.
  - tauto.
  - unfold SyncFine.forceCombatEnd.
    destruct (activeCombats _ !! m') as [cd|] eqn:A; [|tauto].
    assert (m' <> m) by congruence.
    destruct (isComplete cd); [tauto|]. simpl.
    split; [set_solver|]. split; [|exact Hp].
    now rewrite lookup_delete_ne, lookup_insert_ne.
Qed.

Lemma stuck_run m st t :
  m ∈ combatLocks (syncOf st) /\ activeCombats (syncOf st) !! m = None
    /\ SyncFine.pending st !! m = None ->
  m ∈ combatLocks (syncOf (run st t)) /\ activeCombats (syncOf (run st t)) !! m = None
    /\ SyncFine.pending (run st t) !! m = None.
Proof.
  revert st. induction t as [|e t IH]; intros st H; simpl; [assumption|].
  now apply IH, stuck_step.
Qed.

(** X23.  When [combatAI.startCombat] throws out of a
    [startSynchronizedCombat] that has passed the guards, the mission id
    stays in [combatLocks] for good: whatever happens afterwards, no
    session is ever stored for the mission, it never completes,
    [isCombatActive] reports it active, and no later
    [startSynchronizedCombat] for it gets past the guards. *)
Theorem X23_failed_start_locks_mission
    (st : State) (missionId : string) (mission : Mission) (ai : nat) (t : list Event) :
  reachable st ->
  startGuardsPass (syncOf st) missionId = true ->
  let st' :=
    run (step (step st (SyncFine.EvEnterStart missionId mission ai))
              (SyncFine.EvThrowStart missionId)) t in
  missionId ∈ combatLocks (syncOf st')
  /\ activeCombats (syncOf st') !! missionId = None
  /\ (missionId ∉ completedCombats (syncOf st'))
  /\ isCombatActive (syncOf st') missionId = true
  /\ startGuardsPass (syncOf st') missionId = false.
Proof.
  intros Hr Hg st'. pose proof (fine_reachable_Inv _ Hr) as HI.
  assert (HI' : Inv st') by (unfold st'; now apply fine_Inv_run, fine_Inv_step, fine_Inv_step).
  assert (H : missionId ∈ combatLocks (syncOf st')
              /\ activeCombats (syncOf st') !! missionId = None
              /\ SyncFine.pending st' !! missionId = None).
  { unfold st'. apply stuck_run.
    destruct (guards_pass_fresh missionId st HI Hg) as (_ & _ & Hna & _).
    simpl. unfold SyncFine.enterStart. unfold SyncFine.syncOf in Hg. rewrite Hg.
    unfold SyncFine.syncOf. simpl.
    split; [set_solver|]. split; [exact Hna | apply lookup_delete_eq]. }
  destruct H as (Hl & Ha & _).
  split; [exact Hl|]. split; [exact Ha|].
  split; [now apply (SyncFine.inv_locked _ HI')|]. split.
  - unfold isCombatActive. rewrite (bool_decide_eq_true_2 _ Hl). apply orb_true_r.
  - unfold startGuardsPass.
    destruct (decide (missionId ∈ completedCombats _)); [reflexivity|].
    now rewrite decide_True by exact Hl.
Qed.

(** X24.  A listener that throws is called again: while the session is
    stored and the first registered listener throws, every terminal update
    calls that listener once more (and no listener after it), replaces the
    archived result, and leaves the mission locked and not completed. *)
Theorem X24_throwing_listener_called_again
    (st : State) (missionId : string) (combatData : CombatData)
    (cb : nat) (cbs : list nat) (s1 s2 : RealCombatState) (v1 v2 : bool) (now1 now2 : Z) :
  activeCombats (syncOf st) !! missionId = Some combatData ->
  callbacksOf (syncOf st) missionId = cb :: cbs ->
  throws cb = true ->
  victory s1 = Some v1 ->
  victory s2 = Some v2 ->
  let st1 := step st (SyncFine.EvUpdate missionId s1 now1) in
  let st2 := step st1 (SyncFine.EvUpdate missionId s2 now2) in
  effects (SyncFine.world st2)
    = effects (SyncFine.world st)
        ++ [EffCallback missionId cb v1 (secondsBetween now1 (startTime s1));
            EffCallback missionId cb v2 (secondsBetween now2 (startTime s2))]
  /\ fr_victory <$> (finalResults (syncOf st1) !! missionId) = Some v1
  /\ fr_victory <$> (finalResults (syncOf st2) !! missionId) = Some v2
  /\ completedCombats (syncOf st2) = completedCombats (syncOf st)
  /\ combatLocks (syncOf st2) = combatLocks (syncOf st).
Proof.
  intros Hcd Hcbs Hthrow Hv1 Hv2 st1 st2. unfold SyncFine.syncOf in *.
  assert (E1 : SyncFine.world st1 =
    mkWorld
      (mkSync (<[missionId := mkCombatData (combatAI combatData) (Sync.mission combatData)
                                true (secondsBetween now1 (startTime s1))
                                (startedAt combatData)]>
                 (activeCombats (sync (SyncFine.world st))))
              (completedCombats (sync (SyncFine.world st)))
              (<[missionId := mkResult v1 (secondsBetween now1 (startTime s1))
                                (SyncFine.ownHealths (combatants s1))]>
                 (finalResults (sync (SyncFine.world st))))
              (combatLocks (sync (SyncFine.world st)))
              (missionCompletionCallbacks (sync (SyncFine.world st))))
      (effects (SyncFine.world st)
         ++ [EffCallback missionId cb v1 (secondsBetween now1 (startTime s1))])).
  { unfold st1. simpl. unfold SyncFine.onUpdate.
    rewrite Hcd, Hv1, Hcbs. simpl. now rewrite Hthrow. }
  clearbody st1. destruct st1 as [w1 p1]. cbn [SyncFine.world] in E1. subst w1.
  unfold st2. cbn [SyncFine.step SyncFine.world]. unfold SyncFine.onUpdate.
  cbn [sync activeCombats]. rewrite lookup_insert_eq, Hv2.
  replace (callbacksOf _ missionId) with (cb :: cbs) by (symmetry; exact Hcbs).
  cbn [existsb SyncFine.invoked]. rewrite Hthrow.
  cbn [orb map sync effects finalResults completedCombats combatLocks].
  rewrite !lookup_insert_eq, <- app_assoc.
  repeat split; reflexivity.
Qed.

End FineFacts.

(** ** Concrete runs of the step-by-step synchronizer *)

(** C1, counterexample.  Listener [8] is registered for ["m1"] and the
    collaborator reports the victory while it is inside [startCombat]: the
    handler finds no session, the listener is never called, its list is
    kept and the session stored afterwards stays live.  And when listener
    [7] throws, listener [8], registered after it and before the victory,
    is not called either. *)
Lemma C1_counterexample :
  let early := SyncFine.run SyncFine.exCalm SyncFine.initState SyncFine.exEarly in
  let thrown := SyncFine.run SyncFine.exThrows SyncFine.initState SyncFine.exNotify in
  (effects (SyncFine.world early) = [EffStartCombat 0 "m1"]
   /\ missionCompletionCallbacks (SyncFine.syncOf early) !! "m1" = Some [8]
   /\ activeCombats (SyncFine.syncOf early) !! "m1" = Some (mkCombatData 0 tt false 0%Q 1600))
  /\ effects (SyncFine.world thrown)
       = [EffStartCombat 0 "m1"; EffCallback "m1" 7 true (3000 # 1000)]
  /\ missionCompletionCallbacks (SyncFine.syncOf thrown) !! "m1" = Some [7; 8].
Proof. vm_compute. repeat split; reflexivity. Qed.

Lemma C1_listeners_called_once_in_order_witness :
  let st := SyncFine.run SyncFine.exCalm SyncFine.initState SyncFine.exStarted in
  let st2 :=
    SyncFine.step SyncFine.exCalm
      (SyncFine.step SyncFine.exCalm st (SyncFine.EvRegister "m1" 8))
      (SyncFine.EvUpdate "m1" exVictory 4000) in
  effects (SyncFine.world st2)
    = [EffStartCombat 0 "m1";
       EffCallback "m1" 7 true (3000 # 1000); EffCallback "m1" 8 true (3000 # 1000)]
  /\ missionCompletionCallbacks (SyncFine.syncOf st2) !! "m1" = None.
Proof.
  intros st st2.
  destruct (C1_listeners_called_once_in_order SyncFine.exCalm st "m1"
              (mkCombatData 0 tt false 0%Q 1000) [8] exVictory true 4000)
    as (H1 & H2 & _).
  - reflexivity.
  - reflexivity.
  - repeat constructor.
  - split; [exact H1 | exact H2].
Defined.

Lemma C4_forced_end_skips_listeners_witness :
  let w := SyncFine.world (SyncFine.run SyncFine.exCalm SyncFine.initState SyncFine.exStarted) in
  let natural := SyncFine.onUpdate SyncFine.exCalm "m1" (defeatOf exSnapshot) 4000 w in
  let forced := SyncFine.forceCombatEnd "m1" (Some exSnapshot) 4000 w in
  (effects natural = [EffStartCombat 0 "m1"; EffCallback "m1" 7 false (3000 # 1000)]
   /\ effects forced = [EffStartCombat 0 "m1"]
   /\ missionCompletionCallbacks (sync forced) !! "m1" = None)
  /\ fr_actualDuration
       <$> (finalResults
              (sync (SyncFine.onUpdate SyncFine.exCalm "m1" (defeatOf exSnapshot) 1000 w))
              !! "m1") = Some (0 # 1000)%Q
  /\ fr_actualDuration
       <$> (finalResults (sync (SyncFine.forceCombatEnd "m1" (Some exSnapshot) 1000 w))
              !! "m1") = Some (1000 # 1000)%Q.
Proof.
  intros w natural forced. split.
  - destruct (C4_forced_end_skips_listeners SyncFine.exCalm
                (SyncFine.run SyncFine.exCalm SyncFine.initState SyncFine.exStarted)
                "m1" (mkCombatData 0 tt false 0%Q 1000) 7 [] exSnapshot 4000)
      as (H1 & H2 & _ & H4 & _); [reflexivity | reflexivity | reflexivity |].
    split; [exact H1|]. split; [exact H2 | exact H4].
  - destruct (C4_forced_end_skips_listeners SyncFine.exCalm
                (SyncFine.run SyncFine.exCalm SyncFine.initState SyncFine.exStarted)
                "m1" (mkCombatData 0 tt false 0%Q 1000) 7 [] exSnapshot 1000)
      as (_ & _ & _ & _ & _ & H6); [reflexivity | reflexivity | reflexivity |].
    exact (H6 eq_refl).
Defined.

(** C5, counterexample.  When [startSynchronizedCombat] returns with the
    session stored, the mission id is still in [combatLocks]. *)
Lemma C5_counterexample :
  let st :=
    SyncFine.run SyncFine.exCalm SyncFine.initState
      [SyncFine.EvEnterStart "m1" tt 0; SyncFine.EvReturnStart "m1" 1000] in
  activeCombats (SyncFine.syncOf st) !! "m1" = Some (mkCombatData 0 tt false 0%Q 1000)
  /\ "m1" ∈ combatLocks (SyncFine.syncOf st).
Proof.
  split; [reflexivity|]. apply (bool_decide_unpack _). vm_compute. exact I.
Qed.

Lemma C5_lock_held_until_completion_witness :
  let st1 :=
    SyncFine.step SyncFine.exCalm (SyncFine.initState (Mission:=unit))
      (SyncFine.EvEnterStart "m1" tt 0) in
  "m1" ∈ combatLocks (SyncFine.syncOf st1)
  /\ activeCombats (SyncFine.syncOf st1) !! "m1" = None.
Proof.
  intros st1.
  destruct (C5_lock_held_until_completion SyncFine.exCalm
              (SyncFine.initState (Mission:=unit)) "m1" tt 0)
    as (H1 & H2 & _).
  - now exists [].
  - reflexivity.
  - split; [exact H1 | exact H2].
Defined.

(** C10, counterexample.  Listener [7] throws when the victory of ["m1"] is
    handled: the clean-up is skipped, and in the state left behind the
    session is stored with its completion flag set and
    [getActualCombatDuration] returns three seconds. *)
Lemma C10_counterexample :
  let st := SyncFine.run SyncFine.exThrows SyncFine.initState SyncFine.exNotify in
  activeCombats (SyncFine.syncOf st) !! "m1"
    = Some (mkCombatData 0 tt true (3000 # 1000) 1000)
  /\ getActualCombatDuration (SyncFine.syncOf st) "m1" = Some (3000 # 1000).
Proof. vm_compute. split; reflexivity. Qed.

Lemma C10_registered_sessions_incomplete_witness :
  let st := SyncFine.run SyncFine.exCalm SyncFine.initState SyncFine.exNotify in
  (forall m cd, activeCombats (SyncFine.syncOf st) !! m = Some cd -> isComplete cd = false)
  /\ (forall m, getActualCombatDuration (SyncFine.syncOf st) m = None).
Proof.
  intros st.
  apply (C10_registered_sessions_incomplete SyncFine.exCalm st).
  - reflexivity.
  - now exists SyncFine.exNotify.
Defined.

Lemma X23_failed_start_locks_mission_witness :
  let st' :=
    SyncFine.run SyncFine.exCalm
      (SyncFine.step SyncFine.exCalm
         (SyncFine.step SyncFine.exCalm (SyncFine.initState (Mission:=unit))
            (SyncFine.EvEnterStart "m1" tt 0))
         (SyncFine.EvThrowStart "m1"))
      [SyncFine.EvReturnStart "m1" 5; SyncFine.EvEnterStart "m1" tt 1;
       SyncFine.EvUpdate "m1" exVictory 9] in
  "m1" ∈ combatLocks (SyncFine.syncOf st')
  /\ activeCombats (SyncFine.syncOf st') !! "m1" = None
  /\ isCombatActive (SyncFine.syncOf st') "m1" = true.
Proof.
  intros st'.
  destruct (X23_failed_start_locks_mission SyncFine.exCalm
              (SyncFine.initState (Mission:=unit)) "m1" tt 0
              [SyncFine.EvReturnStart "m1" 5; SyncFine.EvEnterStart "m1" tt 1;
               SyncFine.EvUpdate "m1" exVictory 9])
    as (H1 & H2 & _ & H4 & _).
  - now exists [].
  - reflexivity.
  - split; [exact H1|]. split; [exact H2 | exact H4].
Defined.

Lemma X24_throwing_listener_called_again_witness :
  let st := SyncFine.run SyncFine.exThrows SyncFine.initState SyncFine.exStarted in
  let st2 :=
    SyncFine.step SyncFine.exThrows
      (SyncFine.step SyncFine.exThrows st (SyncFine.EvUpdate "m1" exVictory 4000))
      (SyncFine.EvUpdate "m1" (defeatOf exSnapshot) 5000) in
  effects (SyncFine.world st2)
    = [EffStartCombat 0 "m1"; EffCallback "m1" 7 true (3000 # 1000);
       EffCallback "m1" 7 false (4000 # 1000)]
  /\ fr_victory <$> (finalResults (SyncFine.syncOf st2) !! "m1") = Some false.
Proof.
  intros st st2.
  destruct (X24_throwing_listener_called_again SyncFine.exThrows st "m1"
              (mkCombatData 0 tt false 0%Q 1000) 7 [] exVictory (defeatOf exSnapshot)
              true false 4000 5000)
    as (H1 & _ & H3 & _); try reflexivity.
  split; [exact H1 | exact H3].
Defined.

End SyncFineTheory.
